(** * Pool-share queries of the Osmosis frontend

    A shallow embedding of [ObservableQueryGammPoolShare]
    (packages/stores/src/queries/pool-share/index.ts) and the properties
    its specification states about it.

    The class is a set of memoised pure derivations ([computedFn]) over
    read-only stores; a call is modelled as a function of the stores'
    current content (a [Snapshot]) and the call's arguments. *)

From Stdlib Require Import ZArith Bool List Lia.
From Stdlib Require Import Strings.String Strings.Ascii.
From Stdlib Require Import Sorting.Sorted Sorting.Permutation.
Import ListNotations.

Open Scope string_scope.
Open Scope Z_scope.

(** ** JavaScript strings

    Denominations and pool ids are JS strings; they are modelled as
    [string], one [ascii] per code unit (chain denominations are ASCII). *)

(** [s.startsWith(searchString)]. *)
Fixpoint String_startsWith (s searchString : string) {struct searchString}
  : bool :=
  match searchString with
  | EmptyString => true
  | String c p' =>
      match s with
      | EmptyString => false
      | String d s' => Ascii.eqb d c && String_startsWith s' p'
      end
  end.

(** The suffix of [s] from code unit [n] on. *)
Fixpoint String_drop (n : nat) (s : string) : string :=
  match n, s with
  | O, _ => s
  | S _, EmptyString => EmptyString
  | S n', String _ s' => String_drop n' s'
  end.

(** [s.replace(pattern, replacement)] with a string pattern: only the
    first occurrence of [pattern] is replaced.  The replacement is taken
    literally, which is what JS does when it holds no [$] (the source's
    replacement is the empty string). *)
Fixpoint String_replace (s pattern replacement : string) : string :=
  if String_startsWith s pattern
  then replacement ++ String_drop (String.length pattern) s
  else match s with
       | EmptyString => EmptyString
       | String c s' => String c (String_replace s' pattern replacement)
       end.

(** [a === b] on strings. *)
Definition String_strictEq (a b : string) : bool := String.eqb a b.

(** ** Currencies *)

(** [Currency] of @keplr-wallet/types, with the three fields the source
    builds and reads. *)
Record Currency : Type := mkCurrency {
  coinDenom : string;
  coinMinimalDenom : string;
  coinDecimals : Z
}.

(** [static getShareCurrency(poolId)]; the instance method of the same
    name forwards to it. *)
Definition getShareCurrency (poolId : string) : Currency :=
  {| coinDenom := "GAMM/" ++ poolId;
     coinMinimalDenom := "gamm/pool/" ++ poolId;
     coinDecimals := 18 |}.

(** ** The error monad

    The arithmetic of @keplr-wallet/unit throws on a zero divisor and on a
    power of ten outside its precision range.  A computation that may throw
    returns an [option]; [None] is the thrown exception. *)

Definition Exc (A : Type) : Type := option A.

Definition ret {A : Type} (a : A) : Exc A := Some a.

Definition bind {A B : Type} (m : Exc A) (k : A -> Exc B) : Exc B :=
  match m with
  | Some a => k a
  | None => None
  end.

Notation "x <- m ;; k" := (bind m (fun x => k))
  (at level 61, m at next level, right associativity).

(** [xs.map(f)] where [f] may throw: the first exception aborts the map. *)
Fixpoint mapM {A B : Type} (f : A -> Exc B) (xs : list A) : Exc (list B) :=
  match xs with
  | [] => ret []
  | x :: xs' => y <- f x ;; ys <- mapM f xs' ;; ret (y :: ys)
  end.

(** ** Decimals: [Dec] of @keplr-wallet/unit

    A [Dec] is a big integer read with eighteen fractional digits:
    [dec_int d] stands for [dec_int d / 10^18]. *)

Record Dec : Type := mkDec { dec_int : Z }.

Definition Dec_precision : Z := 10 ^ 18.

(** [new Dec(n)] for an integer [n] (also [new Int(n).toDec()]). *)
Definition Dec_ofInt (n : Z) : Dec := mkDec (n * Dec_precision).

Definition Dec_isZero (d : Dec) : bool := dec_int d =? 0.

Definition Dec_add (a b : Dec) : Dec := mkDec (dec_int a + dec_int b).

(** Drops eighteen digits and rounds to the nearest; on a tie the
    quotient is kept when [quotient.divide(2)] is zero, that is for the
    quotients 0 and 1, and is rounded up otherwise.  A negative argument is
    rounded through its absolute value. *)
Definition Dec_chopPrecisionAndRound (d : Z) : Z :=
  let a := Z.abs d in
  let quotient := Z.quot a Dec_precision in
  let remainder := Z.rem a Dec_precision in
  let fivePrecision := Z.quot Dec_precision 2 in
  let rounded :=
    if remainder =? 0 then quotient
    else if remainder <? fivePrecision then quotient
    else if fivePrecision <? remainder then quotient + 1
    else if Z.quot quotient 2 =? 0 then quotient
    else quotient + 1 in
  if d <? 0 then - rounded else rounded.

Definition Dec_chopPrecisionAndTruncate (d : Z) : Z := Z.quot d Dec_precision.

Definition Dec_mul (a b : Dec) : Dec :=
  mkDec (Dec_chopPrecisionAndRound (dec_int a * dec_int b)).

(** [a.quo(b)]: the big-integer division throws on a zero divisor. *)
Definition Dec_quo (a b : Dec) : Exc Dec :=
  if dec_int b =? 0 then None
  else
    let mul := dec_int a * Dec_precision * Dec_precision in
    ret (mkDec (Dec_chopPrecisionAndRound (Z.quot mul (dec_int b)))).

(** [a.quoTruncate(b)]: the same division, the last digits dropped. *)
Definition Dec_quoTruncate (a b : Dec) : Exc Dec :=
  if dec_int b =? 0 then None
  else
    let mul := dec_int a * Dec_precision * Dec_precision in
    ret (mkDec (Dec_chopPrecisionAndTruncate (Z.quot mul (dec_int b)))).

(** [a.lte(b)]. *)
Definition Dec_lte (a b : Dec) : bool := dec_int a <=? dec_int b.

(** [DecUtils.getTenExponentNInPrecisionRange(n)]: [10^n] as a [Dec].
    An exponent above the precision throws.  The calls modelled pass coin
    decimals and the literal 2; a negative exponent is counted as a throw
    as well. *)
Definition DecUtils_getTenExponentNInPrecisionRange (n : Z) : Exc Dec :=
  if (n <? 0) || (18 <? n) then None
  else ret (Dec_ofInt (10 ^ n)).

(** ** Pretty values of @keplr-wallet/unit

    [IntPretty] wraps a [Dec] with display options.  Only the option the
    source reads back is kept, the [ready] flag ([isReady]); the others
    (decimals shown, trimming, shrinking, separators) change the printed
    text alone. *)

Record IntPretty : Type := mkIntPretty {
  int_dec : Dec;
  int_ready : bool
}.

Record CoinPretty : Type := mkCoinPretty {
  currency : Currency;
  coin_int : IntPretty
}.

Record RatePretty : Type := mkRatePretty {
  rate_int : IntPretty
}.

(** [FiatCurrency] of @keplr-wallet/types. *)
Record FiatCurrency : Type := mkFiatCurrency {
  fiat_currency : string;
  fiat_symbol : string;
  fiat_maxDecimals : Z;
  fiat_locale : string
}.

Record PricePretty : Type := mkPricePretty {
  fiatCurrency : FiatCurrency;
  price_int : IntPretty
}.

(** [new IntPretty(num)]: a fresh value is flagged ready. *)
Definition IntPretty_new (num : Dec) : IntPretty :=
  {| int_dec := num; int_ready := true |}.

Definition IntPretty_toDec (p : IntPretty) : Dec := int_dec p.

Definition IntPretty_ready (p : IntPretty) (isReady : bool) : IntPretty :=
  {| int_dec := int_dec p; int_ready := isReady |}.

(** The arithmetic keeps the receiver's options. *)
Definition IntPretty_add (p : IntPretty) (target : Dec) : IntPretty :=
  {| int_dec := Dec_add (int_dec p) target; int_ready := int_ready p |}.

Definition IntPretty_mul (p : IntPretty) (target : Dec) : IntPretty :=
  {| int_dec := Dec_mul (int_dec p) target; int_ready := int_ready p |}.

Definition IntPretty_quo (p : IntPretty) (target : Dec) : Exc IntPretty :=
  q <- Dec_quo (int_dec p) target ;;
  ret {| int_dec := q; int_ready := int_ready p |}.

(** [p.moveDecimalPointLeft(delta)]: the value divided by [10^delta]. *)
Definition IntPretty_moveDecimalPointLeft (p : IntPretty) (delta : Z)
  : Exc IntPretty :=
  ten <- DecUtils_getTenExponentNInPrecisionRange delta ;;
  q <- Dec_quoTruncate (int_dec p) ten ;;
  ret {| int_dec := q; int_ready := int_ready p |}.

(** [new CoinPretty(currency, amount)]: [amount] counts minimal units
    and is scaled down by the currency's decimals. *)
Definition CoinPretty_new (cur : Currency) (amount : Dec) : Exc CoinPretty :=
  ten <- DecUtils_getTenExponentNInPrecisionRange (coinDecimals cur) ;;
  d <- Dec_quoTruncate amount ten ;;
  ret {| currency := cur; coin_int := IntPretty_new d |}.

Definition CoinPretty_toDec (c : CoinPretty) : Dec := int_dec (coin_int c).

Definition CoinPretty_isReady (c : CoinPretty) : bool :=
  int_ready (coin_int c).

(** [this.add(target)] with a [CoinPretty] target: a target of another
    denomination is ignored. *)
Definition CoinPretty_add (c target : CoinPretty) : CoinPretty :=
  if negb (String_strictEq (coinMinimalDenom (currency c))
                           (coinMinimalDenom (currency target)))
  then c
  else {| currency := currency c;
          coin_int := IntPretty_add (coin_int c)
                                    (CoinPretty_toDec target) |}.

Definition CoinPretty_mul (c : CoinPretty) (target : Dec) : CoinPretty :=
  {| currency := currency c;
     coin_int := IntPretty_mul (coin_int c) target |}.

Definition CoinPretty_quo (c : CoinPretty) (target : Dec) : Exc CoinPretty :=
  q <- IntPretty_quo (coin_int c) target ;;
  ret {| currency := currency c; coin_int := q |}.

Definition CoinPretty_moveDecimalPointLeft (c : CoinPretty) (delta : Z)
  : Exc CoinPretty :=
  q <- IntPretty_moveDecimalPointLeft (coin_int c) delta ;;
  ret {| currency := currency c; coin_int := q |}.

(** Display options only. *)
Definition CoinPretty_trim (c : CoinPretty) (_ : bool) : CoinPretty := c.
Definition CoinPretty_shrink (c : CoinPretty) (_ : bool) : CoinPretty := c.

(** [new RatePretty(amount)]: built from [amount.toDec()] alone, so it
    is flagged ready whatever the flag of the argument. *)
Definition RatePretty_new (amount : Dec) : RatePretty :=
  {| rate_int := IntPretty_new amount |}.

Definition RatePretty_toDec (r : RatePretty) : Dec := int_dec (rate_int r).

Definition RatePretty_isReady (r : RatePretty) : bool :=
  int_ready (rate_int r).

Definition RatePretty_ready (r : RatePretty) (b : bool) : RatePretty :=
  {| rate_int := IntPretty_ready (rate_int r) b |}.

Definition RatePretty_moveDecimalPointLeft (r : RatePretty) (delta : Z)
  : Exc RatePretty :=
  q <- IntPretty_moveDecimalPointLeft (rate_int r) delta ;;
  ret {| rate_int := q |}.

(** [new PricePretty(fiatCurrency, amount)]. *)
Definition PricePretty_new (fiat : FiatCurrency) (amount : Dec)
  : PricePretty :=
  {| fiatCurrency := fiat; price_int := IntPretty_new amount |}.

Definition PricePretty_toDec (p : PricePretty) : Dec := int_dec (price_int p).

Definition PricePretty_isReady (p : PricePretty) : bool :=
  int_ready (price_int p).

Definition PricePretty_ready (p : PricePretty) (b : bool) : PricePretty :=
  {| fiatCurrency := fiatCurrency p;
     price_int := IntPretty_ready (price_int p) b |}.

Definition PricePretty_mul (p : PricePretty) (target : Dec) : PricePretty :=
  {| fiatCurrency := fiatCurrency p;
     price_int := IntPretty_mul (price_int p) target |}.

(** Display option only. *)
Definition PricePretty_trim (p : PricePretty) (_ : bool) : PricePretty := p.

(** ** JavaScript numbers, [parseInt], [Set] and [Array.prototype.sort] *)

(** The Number values [parseInt] can return: [NaN], an integer-valued
    double, or an infinity ([-0] is [Fin 0]: the comparisons do not tell
    them apart). *)
Inductive Number : Type :=
| NaN
| Fin (value : Z)
| PosInf
| NegInf.

(** The double nearest to a non-negative integer (ties to even). *)
Definition Number_roundNat (n : Z) : Number :=
  if n <? 2 ^ 53 then Fin n
  else
    let e := Z.log2 n - 52 in
    let q := n / 2 ^ e in
    let r := n mod 2 ^ e in
    let half := 2 ^ (e - 1) in
    let q' := if r <? half then q
              else if half <? r then q + 1
              else if Z.even q then q else q + 1 in
    if 2 ^ 1024 <=? q' * 2 ^ e then PosInf else Fin (q' * 2 ^ e).

Definition Number_neg (x : Number) : Number :=
  match x with
  | NaN => NaN
  | Fin v => Fin (- v)
  | PosInf => NegInf
  | NegInf => PosInf
  end.

(** The Number value of a mathematical integer. *)
Definition Number_ofInteger (n : Z) : Number :=
  if n <? 0 then Number_neg (Number_roundNat (- n)) else Number_roundNat n.

(** [a >= b]: false as soon as one side is [NaN]. *)
Definition Number_ge (a b : Number) : bool :=
  match a, b with
  | NaN, _ => false
  | _, NaN => false
  | _, NegInf => true
  | PosInf, _ => true
  | NegInf, _ => false
  | Fin _, PosInf => false
  | Fin x, Fin y => y <=? x
  end.

(** White space that [parseInt] skips, among the code units below 256. *)
Definition isWhiteSpace (c : ascii) : bool :=
  let n := Z.of_nat (nat_of_ascii c) in
  ((9 <=? n) && (n <=? 13)) || (n =? 32) || (n =? 160).

Fixpoint trimStart (s : string) : string :=
  match s with
  | EmptyString => EmptyString
  | String c s' => if isWhiteSpace c then trimStart s' else s
  end.

(** The value of a digit: [0-9], then letters of either case from ten on. *)
Definition digitValue (c : ascii) : option Z :=
  let n := Z.of_nat (nat_of_ascii c) in
  if (48 <=? n) && (n <=? 57) then Some (n - 48)
  else if (97 <=? n) && (n <=? 122) then Some (n - 97 + 10)
  else if (65 <=? n) && (n <=? 90) then Some (n - 65 + 10)
  else None.

Definition isRadixDigit (R : Z) (c : ascii) : bool :=
  match digitValue c with
  | Some d => d <? R
  | None => false
  end.

(** The value, in radix [R], of the longest prefix of [s] made of
    radix-[R] digits, continuing from [acc]. *)
Fixpoint digitsValue (R : Z) (s : string) (acc : Z) : Z :=
  match s with
  | EmptyString => acc
  | String c s' =>
      match digitValue c with
      | Some d => if d <? R then digitsValue R s' (acc * R + d) else acc
      | None => acc
      end
  end.

(** [parseInt(string)] with no radix argument: leading white space and a
    sign are skipped, a [0x]/[0X] prefix selects radix sixteen, and the
    digits that follow are read up to the first other code unit; with no
    digit the result is [NaN].  The integer read is rounded to a double
    only once it is complete (past twenty digits ECMAScript lets an engine
    approximate it before). *)
Definition parseInt (str : string) : Number :=
  let S0 := trimStart str in
  let '(sign, S1) :=
    match S0 with
    | String "-" rest => (-1, rest)
    | String "+" rest => (1, rest)
    | _ => (1, S0)
    end in
  let '(R, S2) :=
    if String_startsWith S1 "0x" || String_startsWith S1 "0X"
    then (16, String_drop 2 S1)
    else (10, S1) in
  match S2 with
  | EmptyString => NaN
  | String c _ =>
      if isRadixDigit R c
      then Number_ofInteger (sign * digitsValue R S2 0)
      else NaN
  end.

(** A [Set] of strings, as the list of its members in insertion order. *)
Definition Set_add (members : list string) (x : string) : list string :=
  if existsb (String.eqb x) members then members
  else (members ++ [x])%list.

(** [[...new Set(xs)]]. *)
Definition Set_from (xs : list string) : list string :=
  fold_left Set_add xs [].

(** [Array.prototype.sort(comparefn)].  ECMAScript leaves the algorithm to
    the engine; the one modelled is that of V8 (TimSort) on an array of
    fewer than 64 elements, which is a single run: [CountAndMakeRun] takes
    the longest ascending or strictly descending run at the start of the
    array, reversing a descending one, and [BinaryInsertionSort] inserts
    each later element where a binary search places it.  (A longer array
    is cut into such runs, which are then merged.) *)

(** The loop of [CountAndMakeRun]: the elements that continue the run
    after [previousElement], and the elements left. *)
Fixpoint Array_sort_takeRun {A : Type} (comparefn : A -> A -> Z)
    (isDescending : bool) (previousElement : A) (xs : list A)
  : list A * list A :=
  match xs with
  | [] => ([], [])
  | currentElement :: xs' =>
      let order := comparefn currentElement previousElement in
      if (if isDescending then 0 <=? order else order <? 0)
      then ([], xs)
      else
        let (run, rest) :=
          Array_sort_takeRun comparefn isDescending currentElement xs' in
        (currentElement :: run, rest)
  end.

(** [CountAndMakeRun]: the first run, made ascending, and the elements
    after it. *)
Definition Array_sort_countAndMakeRun {A : Type} (comparefn : A -> A -> Z)
    (xs : list A) : list A * list A :=
  match xs with
  | elementHigh :: elementLow :: xs' =>
      let order := comparefn elementLow elementHigh in
      let isDescending := order <? 0 in
      let (run, rest) :=
        Array_sort_takeRun comparefn isDescending elementLow xs' in
      let whole := elementHigh :: elementLow :: run in
      (if isDescending then rev whole else whole, rest)
  | _ => (xs, [])
  end.

(** The binary search of [BinaryInsertionSort] for the place of [pivot]
    in the sorted part, between [left] and [right]; every turn shrinks the
    interval, so [right - left] turns are enough. *)
Fixpoint Array_sort_search {A : Type} (comparefn : A -> A -> Z)
    (pivot : A) (sorted : list A) (fuel left right : nat) : nat :=
  match fuel with
  | O => left
  | S fuel' =>
      if (left <? right)%nat then
        let mid := (left + (right - left) / 2)%nat in
        let order := comparefn pivot (nth mid sorted pivot) in
        if order <? 0
        then Array_sort_search comparefn pivot sorted fuel' left mid
        else Array_sort_search comparefn pivot sorted fuel' (S mid) right
      else left
  end.

(** One turn of [BinaryInsertionSort]: the elements from the place found
    on slide one slot to the right and [pivot] takes the place. *)
Definition Array_sort_insert {A : Type} (comparefn : A -> A -> Z)
    (pivot : A) (sorted : list A) : list A :=
  let start := List.length sorted in
  let left := Array_sort_search comparefn pivot sorted start 0 start in
  (firstn left sorted ++ pivot :: skipn left sorted)%list.

Definition Array_sort {A : Type} (comparefn : A -> A -> Z)
    (xs : list A) : list A :=
  let (run, rest) := Array_sort_countAndMakeRun comparefn xs in
  fold_left (fun sorted pivot => Array_sort_insert comparefn pivot sorted)
            rest run.


(** ** The stores read by the queries *)

(** Modelled from the spec: the pool objects of [ObservableQueryPools]
    (../pools), which are not part of the sources at hand: a pool has a
    [totalShare], an ordered list of assets with a weight and an amount
    each, and a [totalWeight]. *)
Record PoolAsset : Type := mkPoolAsset {
  weight : IntPretty;
  amount : CoinPretty
}.

Record Pool : Type := mkPool {
  totalShare : CoinPretty;
  poolAssets : list PoolAsset;
  totalWeight : IntPretty
}.

(** The content of the stores at one instant.  Addresses and pool ids are
    strings.
    - [positiveBalances a] is
      [queryBalances.getQueryBech32Address(a).positiveBalances]
      (each entry is read through its [currency] only);
    - [getBalanceFromCurrency a c] is
      [queryBalances.getQueryBech32Address(a).getBalanceFromCurrency(c)];
    - [lockedCoins a] is [queryLockedCoins.get(a).lockedCoins];
    - [unlockingCoins a] is [queryUnlockingCoins.get(a).unlockingCoins];
    - [getPool id] is [queryPools.getPool(id)], [None] for [undefined]. *)
Record Snapshot : Type := mkSnapshot {
  positiveBalances : string -> list CoinPretty;
  getBalanceFromCurrency : string -> Currency -> CoinPretty;
  lockedCoins : string -> list CoinPretty;
  unlockingCoins : string -> list CoinPretty;
  getPool : string -> option Pool
}.

(** ** The queries of [ObservableQueryGammPoolShare] *)

Section Queries.

Variable s : Snapshot.

(** The comparator handed to [sort]. *)
Definition comparePoolIds (e1 e2 : string) : Z :=
  if Number_ge (parseInt e1) (parseInt e2) then 1 else -1.

(** One turn of the loop of [getOwnPools]: a coin whose denomination
    starts with "gamm/pool/" pushes what is left of it once the prefix is
    replaced by the empty string. *)
Definition collectStep (result : list string) (bal : CoinPretty)
  : list string :=
  if String_startsWith (coinMinimalDenom (currency bal)) "gamm/pool/"
  then (result ++
        [String_replace (coinMinimalDenom (currency bal))
                        "gamm/pool/" EmptyString])%list
  else result.

(** The loop of [getOwnPools] over [balances.concat(locked)]. *)
Definition collectPoolIds (coins : list CoinPretty) : list string :=
  fold_left collectStep coins [].

Definition getOwnPools (bech32Address : string) : list string :=
  let balances := positiveBalances s bech32Address in
  let locked := lockedCoins s bech32Address in
  let result := collectPoolIds (balances ++ locked)%list in
  let result := Set_from result in
  Array_sort comparePoolIds result.

Definition getLockedGammShare (bech32Address poolId : string)
  : Exc CoinPretty :=
  let currency_ := getShareCurrency poolId in
  match find (fun coin =>
                String_strictEq (coinMinimalDenom (currency coin))
                                (coinMinimalDenom currency_))
             (lockedCoins s bech32Address) with
  | Some locked => ret locked
  | None => CoinPretty_new currency_ (Dec_ofInt 0)
  end.

Definition getLockedGammShareRatio (bech32Address poolId : string)
  : Exc RatePretty :=
  match getPool s poolId with
  | None => ret (RatePretty_ready (RatePretty_new (Dec_ofInt 0)) false)
  | Some pool =>
      let totalShare_ := totalShare pool in
      if Dec_isZero (CoinPretty_toDec totalShare_)
      then ret (RatePretty_new (Dec_ofInt 0))
      else
        share <- getLockedGammShare bech32Address poolId ;;
        q <- CoinPretty_quo share (CoinPretty_toDec totalShare_) ;;
        m <- CoinPretty_moveDecimalPointLeft q 2 ;;
        ret (RatePretty_new (CoinPretty_toDec m))
  end.

Definition getLockedGammShareValue (bech32Address poolId : string)
    (poolLiqudity : PricePretty) (fiatCurrency_ : FiatCurrency)
  : Exc PricePretty :=
  match getPool s poolId with
  | None => ret (PricePretty_ready
                   (PricePretty_new fiatCurrency_ (Dec_ofInt 0)) false)
  | Some pool =>
      let totalShare_ := totalShare pool in
      if Dec_isZero (CoinPretty_toDec totalShare_)
      then ret (PricePretty_new fiatCurrency_ (Dec_ofInt 0))
      else
        share <- getLockedGammShare bech32Address poolId ;;
        q <- CoinPretty_quo share (CoinPretty_toDec totalShare_) ;;
        ret (PricePretty_trim
               (PricePretty_mul poolLiqudity
                  (IntPretty_toDec (IntPretty_new (CoinPretty_toDec q))))
               true)
  end.

Definition getUnlockingGammShare (bech32Address poolId : string)
  : Exc CoinPretty :=
  let currency_ := getShareCurrency poolId in
  match find (fun coin =>
                String_strictEq (coinMinimalDenom (currency coin))
                                (coinMinimalDenom currency_))
             (unlockingCoins s bech32Address) with
  | Some locked => ret locked
  | None => CoinPretty_new currency_ (Dec_ofInt 0)
  end.

Definition getAvailableGammShare (bech32Address poolId : string)
  : CoinPretty :=
  let currency_ := getShareCurrency poolId in
  getBalanceFromCurrency s bech32Address currency_.

Definition getAvailableGammShareRatio (bech32Address poolId : string)
  : Exc RatePretty :=
  match getPool s poolId with
  | None => ret (RatePretty_ready (RatePretty_new (Dec_ofInt 0)) false)
  | Some pool =>
      let totalShare_ := totalShare pool in
      if Dec_isZero (CoinPretty_toDec totalShare_)
      then ret (RatePretty_new (Dec_ofInt 0))
      else
        q <- CoinPretty_quo (getAvailableGammShare bech32Address poolId)
                            (CoinPretty_toDec totalShare_) ;;
        ret (RatePretty_new (CoinPretty_toDec q))
  end.

Definition getAllGammShare (bech32Address poolId : string)
  : Exc CoinPretty :=
  let available := getAvailableGammShare bech32Address poolId in
  locked <- getLockedGammShare bech32Address poolId ;;
  ret (CoinPretty_add available locked).

Definition getAllGammShareRatio (bech32Address poolId : string)
  : Exc RatePretty :=
  match getPool s poolId with
  | None => ret (RatePretty_ready (RatePretty_new (Dec_ofInt 0)) false)
  | Some pool =>
      share <- getAllGammShare bech32Address poolId ;;
      let totalShare_ := totalShare pool in
      if Dec_isZero (CoinPretty_toDec totalShare_)
      then ret (RatePretty_new (CoinPretty_toDec totalShare_))
      else
        q <- CoinPretty_quo share (CoinPretty_toDec totalShare_) ;;
        ret (RatePretty_new (CoinPretty_toDec q))
  end.

(** An entry of the list [getShareAssets] returns. *)
Record ShareAsset : Type := mkShareAsset {
  ratio : RatePretty;
  asset : CoinPretty
}.

Definition getShareAssets (bech32Address poolId : string)
  : Exc (list ShareAsset) :=
  shareRatio <- getAllGammShareRatio bech32Address poolId ;;
  match getPool s poolId with
  | None => ret []
  | Some pool =>
      if negb (RatePretty_isReady shareRatio) then ret []
      else
        mapM (fun a =>
                w <- IntPretty_quo (weight a)
                                   (IntPretty_toDec (totalWeight pool)) ;;
                r <- RatePretty_moveDecimalPointLeft shareRatio 2 ;;
                ret {| ratio := RatePretty_new (IntPretty_toDec w);
                       asset := CoinPretty_shrink
                                  (CoinPretty_trim
                                     (CoinPretty_mul (amount a)
                                                     (RatePretty_toDec r))
                                     true)
                                  true |})
             (poolAssets pool)
  end.

End Queries.

(** ** Concrete snapshots *)

(** The coin [new CoinPretty(getShareCurrency(poolId), new Dec(n))]:
    [n] minimal units of the pool's share token. *)
Definition shareCoin (poolId : string) (n : Z) : CoinPretty :=
  {| currency := getShareCurrency poolId;
     coin_int := IntPretty_new (mkDec n) |}.

(** A balance view over a list of balances: the balance of a currency is
    the entry of that minimal denomination, or a zero coin of the asked
    currency. *)
Definition balanceOf (balances : list CoinPretty) (c : Currency)
  : CoinPretty :=
  match find (fun bal =>
                String_strictEq (coinMinimalDenom (currency bal))
                                (coinMinimalDenom c)) balances with
  | Some bal => bal
  | None => {| currency := c; coin_int := IntPretty_new (mkDec 0) |}
  end.

(** A snapshot in which one address holds the given coins and every other
    address holds nothing. *)
Definition snapshotOf (owner : string)
    (balances locked unlocking : list CoinPretty)
    (pools : string -> option Pool) : Snapshot :=
  let only (coins : list CoinPretty) (a : string) :=
    if String.eqb a owner then coins else [] in
  {| positiveBalances := only balances;
     getBalanceFromCurrency := fun a c => balanceOf (only balances a) c;
     lockedCoins := only locked;
     unlockingCoins := only unlocking;
     getPool := pools |}.

Definition addressA : string := "osmo1a".

Definition uosmo : Currency :=
  {| coinDenom := "OSMO"; coinMinimalDenom := "uosmo"; coinDecimals := 6 |}.

Definition uatom : Currency :=
  {| coinDenom := "ATOM"; coinMinimalDenom := "uatom"; coinDecimals := 6 |}.

(** A two-asset pool with the given number of share units. *)
Definition poolWithShares (poolId : string) (shares : Z) : Pool :=
  {| totalShare := shareCoin poolId shares;
     poolAssets :=
       [ {| weight := IntPretty_new (Dec_ofInt 1);
            amount := {| currency := uosmo;
                         coin_int := IntPretty_new (Dec_ofInt 1000) |} |};
         {| weight := IntPretty_new (Dec_ofInt 3);
            amount := {| currency := uatom;
                         coin_int := IntPretty_new (Dec_ofInt 500) |} |} ];
     totalWeight := IntPretty_new (Dec_ofInt 4) |}.

(** The end-to-end scenario of the specification: address A has 50 units
    of pool 3 locked, 20 of them unlocking, and 30 in its balance; pool 3
    has 100 share units; no other pool is registered. *)
Definition scenario : Snapshot :=
  snapshotOf addressA
    [shareCoin "3" 30] [shareCoin "3" 50] [shareCoin "3" 20]
    (fun id => if String.eqb id "3" then Some (poolWithShares "3" 100)
               else None).

(** Pool 3 registered before any share of it exists. *)
Definition emptyPoolSnapshot : Snapshot :=
  snapshotOf addressA
    [shareCoin "3" 30] [shareCoin "3" 50] [shareCoin "3" 20]
    (fun id => if String.eqb id "3" then Some (poolWithShares "3" 0)
               else None).

(** The unlocking view already loaded while the locked view is still
    empty. *)
Definition lockedNotLoaded : Snapshot :=
  snapshotOf addressA [] [] [shareCoin "3" 20] (fun _ => None).

(** Address A owns shares of pools 2, 10 and 1, pool 2 both liquid and
    locked, next to a coin that is no pool share. *)
Definition threePools : Snapshot :=
  snapshotOf addressA
    [shareCoin "2" 5; {| currency := uosmo;
                         coin_int := IntPretty_new (Dec_ofInt 7) |};
     shareCoin "10" 1]
    [shareCoin "1" 4; shareCoin "2" 9] []
    (fun _ => None).

(** Snapshots that differ from [s] in one store only. *)
Definition withPools (s : Snapshot) (pools : string -> option Pool)
  : Snapshot :=
  {| positiveBalances := positiveBalances s;
     getBalanceFromCurrency := getBalanceFromCurrency s;
     lockedCoins := lockedCoins s;
     unlockingCoins := unlockingCoins s;
     getPool := pools |}.


(** ** Vocabulary of the properties *)

(** A query result that is a rate (resp. a price) flagged not ready. *)
Definition notReadyRate (x : Exc RatePretty) : Prop :=
  exists r, x = Some r /\ RatePretty_isReady r = false.

Definition notReadyPrice (x : Exc PricePretty) : Prop :=
  exists p, x = Some p /\ PricePretty_isReady p = false.

(** The minimal denomination of a coin. *)
Definition denomOf (c : CoinPretty) : string :=
  coinMinimalDenom (currency c).


(** What the lockup module guarantees about an address: every unlocking
    record is covered by a locked record of its denomination, the locked
    records have pairwise distinct denominations, and none is negative. *)
Record lockupConsistent (s : Snapshot) (a : string) : Prop :=
  mkLockupConsistent {
  unlocking_covered :
    forall u, In u (unlockingCoins s a) ->
      exists l, In l (lockedCoins s a) /\ denomOf l = denomOf u /\
                Dec_lte (CoinPretty_toDec u) (CoinPretty_toDec l) = true;
  locked_distinct : NoDup (map denomOf (lockedCoins s a));
  locked_nonneg :
    forall l, In l (lockedCoins s a) ->
      Dec_lte (Dec_ofInt 0) (CoinPretty_toDec l) = true
}.

(** ** Locked assets per duration *)

(** What [queryAccountLocked.get(a).getLockedCoinWithDuration(c, d)]
    answers: the amount locked for the duration and the ids of the locks. *)
Record LockedCoinWithDuration : Type := mkLockedCoinWithDuration {
  lockedAmount : CoinPretty;
  lockedIds : list string
}.

(** An entry of the list [getShareLockedAssets] returns ([duration],
    [amount], [lockIds]); durations are values of dayjs, kept abstract. *)
Record ShareLockedAsset (Duration : Type) : Type := mkShareLockedAsset {
  duration : Duration;
  durationAmount : CoinPretty;
  lockIds : list string
}.

Arguments mkShareLockedAsset {Duration}.
Arguments duration {Duration}.
Arguments durationAmount {Duration}.
Arguments lockIds {Duration}.

(** [getShareLockedAssets]; its first argument is the view
    [fun a c d => queryAccountLocked.get(a).getLockedCoinWithDuration(c, d)]. *)
Definition getShareLockedAssets {Duration : Type}
    (getLockedCoinWithDuration :
       string -> Currency -> Duration -> LockedCoinWithDuration)
    (bech32Address poolId : string) (lockableDurations : list Duration)
  : list (ShareLockedAsset Duration) :=
  let poolShareCurrency := getShareCurrency poolId in
  map (fun duration_ =>
         let lockedCoin :=
           getLockedCoinWithDuration bech32Address poolShareCurrency
                                     duration_ in
         {| duration := duration_;
            durationAmount := lockedAmount lockedCoin;
            lockIds := lockedIds lockedCoin |})
      lockableDurations.

(** ** The page layout ([MainLayout])

    What the component derives from its hooks and properties before it
    renders. *)

(** A [RegExp] object.  [regexpId] tells the objects apart (two menus may
    hold the same one), [global] and [sticky] are the flags [g] and [y],
    and [matchFrom i s] is what the matcher finds in [s] when it starts at
    index [i]: the index where the match ends, or nothing. *)
Record RegExp : Type := mkRegExp {
  regexpId : nat;
  global : bool;
  sticky : bool;
  matchFrom : nat -> string -> option nat
}.

(** The [lastIndex] property of each [RegExp] object. *)
Definition RegExpHeap : Type := nat -> nat.

Definition setLastIndex (h : RegExpHeap) (id value : nat) : RegExpHeap :=
  fun j => if Nat.eqb j id then value else h j.

(** [re.test(str)].  With the flag [g] or [y] the search starts at
    [lastIndex], which is then set to the end of the match, or to 0 when
    there is none or when it lies past the end of [str]; with neither flag
    the search starts at 0 and [lastIndex] is left alone. *)
Definition RegExp_test (re : RegExp) (str : string) (h : RegExpHeap)
  : bool * RegExpHeap :=
  if global re || sticky re then
    let lastIndex := h (regexpId re) in
    if (String.length str <? lastIndex)%nat
    then (false, setLastIndex h (regexpId re) 0)
    else
      match matchFrom re lastIndex str with
      | Some e => (true, setLastIndex h (regexpId re) e)
      | None => (false, setLastIndex h (regexpId re) 0)
      end
  else
    match matchFrom re 0 str with
    | Some _ => (true, h)
    | None => (false, h)
    end.

(** [MainLayoutMenu]; the two analytics events, read by the click handler
    alone, are left out. *)
Record MainLayoutMenu : Type := mkMainLayoutMenu {
  label : string;
  link : string;
  icon : string;
  iconSelected : option string;
  selectionTest : option RegExp
}.

(** The values of the hooks: window height, [isMobile], [isScrolledTop],
    [showSidebar] and [router.pathname]. *)
Record LayoutState : Type := mkLayoutState {
  height : Z;
  isMobile : bool;
  isScrolledTop : bool;
  showSidebar : bool;
  pathname : string
}.

Definition smallVerticalScreen (st : LayoutState) : bool :=
  height st <? 850.

Definition showFixedLogo (st : LayoutState) : bool :=
  negb (smallVerticalScreen st) || (isMobile st && negb (showSidebar st)).

Definition showBlockLogo (st : LayoutState) : bool :=
  smallVerticalScreen st.

(** The class [hidden] of the sidebar, which holds the block logo and the
    menu. *)
Definition sidebarHidden (st : LayoutState) : bool :=
  negb (showSidebar st) && isMobile st.

(** The class [hidden] of the mobile header, and of the menu button in
    it. *)
Definition mobileHeaderHidden (st : LayoutState) : bool :=
  showSidebar st || negb (isMobile st).

Definition menuButtonHidden (st : LayoutState) : bool :=
  showSidebar st.

(** [selectionTest?.test(router.pathname) ?? false], the test of [find]. *)
Definition matchesPath (path : string) (menu : MainLayoutMenu)
    (h : RegExpHeap) : bool * RegExpHeap :=
  match selectionTest menu with
  | Some re => RegExp_test re path h
  | None => (false, h)
  end.

(** [menus.find(...)]: the menus are tested in order up to the first one
    that matches. *)
Fixpoint selectedMenuItem (menus : list MainLayoutMenu) (path : string)
    (h : RegExpHeap) : option MainLayoutMenu * RegExpHeap :=
  match menus with
  | [] => (None, h)
  | menu :: rest =>
      let (found, h') := matchesPath path menu h in
      if found then (Some menu, h') else selectedMenuItem rest path h'
  end.

(** [selectionTest ? selectionTest.test(router.pathname) : false], computed
    for each menu as it is rendered. *)
Definition selected (path : string) (menu : MainLayoutMenu)
    (h : RegExpHeap) : bool * RegExpHeap :=
  match selectionTest menu with
  | Some re => RegExp_test re path h
  | None => (false, h)
  end.

(** [menus.map(...)]: each menu with its [selected] flag. *)
Fixpoint renderMenuItems (menus : list MainLayoutMenu) (path : string)
    (h : RegExpHeap) : list (MainLayoutMenu * bool) * RegExpHeap :=
  match menus with
  | [] => ([], h)
  | menu :: rest =>
      let (isSelected, h') := selected path menu h in
      let (items, h'') := renderMenuItems rest path h' in
      ((menu, isSelected) :: items, h'')
  end.

(** The [target] of the link of a menu. *)
Definition linkTarget (menu : MainLayoutMenu) : string :=
  match selectionTest menu with
  | Some _ => "_self"
  | None => "_blank"
  end.

(** Whether the external-link mark is drawn next to the label. *)
Definition showLinkDeco (menu : MainLayoutMenu) : bool :=
  match selectionTest menu with
  | Some _ => false
  | None => true
  end.

(** What one rendering shows of the menus: the title handed to [NavBar]
    and the menu items with their [selected] flag. *)
Record MainLayoutView : Type := mkMainLayoutView {
  navBarTitle : string;
  menuItems : list (MainLayoutMenu * bool)
}.

(** One rendering: [selectedMenuItem] is computed first, the menus are
    mapped next, and the title is [selectedMenuItem?.label ?? ...], the
    empty string when no menu is found. *)
Definition renderMainLayout (menus : list MainLayoutMenu) (path : string)
    (h : RegExpHeap) : MainLayoutView * RegExpHeap :=
  let (selectedMenu, h1) := selectedMenuItem menus path h in
  let (items, h2) := renderMenuItems menus path h1 in
  ({| navBarTitle := match selectedMenu with
                     | Some menu => label menu
                     | None => EmptyString
                     end;
      menuItems := items |}, h2).

(** The labels of the [<title>] elements rendered, one per selected
    menu. *)
Definition headTitles (view : MainLayoutView) : list string :=
  map (fun item => label (fst item)) (filter snd (menuItems view)).

(** The menus whose expressions carry neither [g] nor [y]. *)
Definition statelessMenus (menus : list MainLayoutMenu) : Prop :=
  forall menu re,
    In menu menus -> selectionTest menu = Some re ->
    global re = false /\ sticky re = false.

(** ** More concrete data *)

(** A snapshot whose pool 3 has share units but assets of total weight
    zero. *)
Definition zeroWeightPool : Pool :=
  {| totalShare := shareCoin "3" 100;
     poolAssets :=
       [ {| weight := IntPretty_new (Dec_ofInt 0);
            amount := {| currency := uosmo;
                         coin_int := IntPretty_new (Dec_ofInt 1000) |} |} ];
     totalWeight := IntPretty_new (Dec_ofInt 0) |}.

Definition zeroWeightSnapshot : Snapshot :=
  withPools scenario
    (fun id => if String.eqb id "3" then Some zeroWeightPool else None).

(** Address A with the same 40 units of pool 3 locked and liquid. *)
Definition evenSnapshot : Snapshot :=
  snapshotOf addressA [shareCoin "3" 40] [shareCoin "3" 40] []
    (fun id => if String.eqb id "3" then Some (poolWithShares "3" 100)
               else None).

(** Address A with two locked records of pool 3. *)
Definition twoRecords : Snapshot :=
  snapshotOf addressA [] [shareCoin "5" 1; shareCoin "3" 7; shareCoin "3" 9]
    [] (fun _ => None).

(** A lock view: one lock of 5 units for a duration of 1, nothing else. *)
Definition oneLock (a : string) (c : Currency) (d : Z)
  : LockedCoinWithDuration :=
  if d =? 1
  then {| lockedAmount := {| currency := c;
                             coin_int := IntPretty_new (mkDec 5) |};
          lockedIds := ["42"] |}
  else {| lockedAmount := {| currency := c;
                             coin_int := IntPretty_new (mkDec 0) |};
          lockedIds := [] |}.

(** The index of the first occurrence of [pat] in [s]. *)
Fixpoint String_indexOf (s pat : string) : option nat :=
  if String_startsWith s pat then Some O
  else match s with
       | EmptyString => None
       | String _ s' => option_map S (String_indexOf s' pat)
       end.

(** The matcher of a pattern that is the literal text [pat]. *)
Definition literalFrom (pat : string) (i : nat) (s : string) : option nat :=
  option_map (fun k => (i + k + String.length pat)%nat)
             (String_indexOf (String_drop i s) pat).

(** The matcher of the literal text [pat] anchored at the start. *)
Definition anchoredFrom (pat : string) (i : nat) (s : string) : option nat :=
  if Nat.eqb i 0 && String_startsWith s pat
  then Some (String.length pat) else None.

(** The matcher of the literal text [pat] anchored at both ends. *)
Definition exactFrom (pat : string) (i : nat) (s : string) : option nat :=
  if Nat.eqb i 0 && String.eqb s pat
  then Some (String.length pat) else None.

(** A menu of two pages and one external link. *)
Definition sampleMenus : list MainLayoutMenu :=
  [ {| label := "Swap"; link := "/"; icon := "/icons/trade.svg";
       iconSelected := None;
       selectionTest := Some (mkRegExp 0 false false (exactFrom "/")) |};
    {| label := "Pools"; link := "/pools"; icon := "/icons/pool.svg";
       iconSelected := None;
       selectionTest :=
         Some (mkRegExp 1 false false (anchoredFrom "/pool")) |};
    {| label := "Vote"; link := "https://vote.example";
       icon := "/icons/vote.svg"; iconSelected := None;
       selectionTest := None |} ].

(** A menu whose expression is the text "/pool" with the flag [g]. *)
Definition globalPoolsMenu : MainLayoutMenu :=
  {| label := "Pools"; link := "/pools"; icon := "/icons/pool.svg";
     iconSelected := None;
     selectionTest := Some (mkRegExp 1 true false (literalFrom "/pool")) |}.

(** Every [lastIndex] at 0, as for expressions never used. *)
Definition freshRegExps : RegExpHeap := fun _ => O.




(** * Properties *)

(** ** Strings *)

Lemma String_startsWith_app (p s : string) :
  String_startsWith (p ++ s) p = true.
Proof.
  induction p as [|c p IH]; simpl; [reflexivity|].
  now rewrite Ascii.eqb_refl, IH.
Qed.

Lemma String_drop_app (p s : string) :
  String_drop (String.length p) (p ++ s) = s.
Proof.
  induction p as [|c p IH]; simpl; [reflexivity | exact IH].
Qed.

Lemma String_startsWith_inv (p s : string) :
  String_startsWith s p = true ->
  s = p ++ String_drop (String.length p) s.
Proof.
  revert s; induction p as [|c p IH]; intros s H; simpl in *.
  - reflexivity.
  - destruct s as [|d s]; [discriminate|].
    apply andb_true_iff in H as [Hc Hs].
    apply Ascii.eqb_eq in Hc; subst d.
    simpl. f_equal. now apply IH.
Qed.

Lemma String_replace_prefix (s p r : string) :
  String_startsWith s p = true ->
  String_replace s p r = r ++ String_drop (String.length p) s.
Proof.
  intros H. destruct s; cbn [String_replace]; now rewrite H.
Qed.

(** Stripping the prefix as [getOwnPools] does gives back what follows it. *)
Lemma String_replace_strip (p id : string) :
  String_replace (p ++ id) p EmptyString = id.
Proof.
  rewrite String_replace_prefix by apply String_startsWith_app.
  simpl. apply String_drop_app.
Qed.

(** ** Arithmetic *)

Lemma Dec_isZero_true (d : Dec) : Dec_isZero d = true -> d = Dec_ofInt 0.
Proof.
  destruct d as [z]; unfold Dec_isZero, Dec_ofInt; simpl.
  intros H; apply Z.eqb_eq in H; now subst.
Qed.

Lemma Dec_precision_pos : 0 < Dec_precision.
Proof. reflexivity. Qed.

Lemma getTenExponent_18 :
  DecUtils_getTenExponentNInPrecisionRange 18
  = Some (Dec_ofInt Dec_precision).
Proof. reflexivity. Qed.

Lemma Dec_quoTruncate_scaled (n : Z) :
  Dec_quoTruncate (Dec_ofInt n) (Dec_ofInt Dec_precision) = Some (mkDec n).
Proof.
  unfold Dec_quoTruncate, Dec_ofInt, ret, Dec_chopPrecisionAndTruncate.
  cbn [dec_int].
  pose proof Dec_precision_pos as HP.
  generalize dependent Dec_precision. intros P HP.
  destruct (P * P =? 0) eqn:E.
  - apply Z.eqb_eq in E. nia.
  - replace (n * P * P * P) with (n * P * (P * P)) by ring.
    rewrite Z.quot_mul by nia.
    rewrite Z.quot_mul by lia.
    reflexivity.
Qed.

(** The constructor of [CoinPretty] on a share currency: the eighteen
    decimals are within the precision, so it does not throw, and [n]
    minimal units give the coin [shareCoin poolId n]. *)
Lemma CoinPretty_new_share (poolId : string) (n : Z) :
  CoinPretty_new (getShareCurrency poolId) (Dec_ofInt n)
  = Some (shareCoin poolId n).
Proof.
  unfold CoinPretty_new, shareCoin. cbn [coinDecimals getShareCurrency].
  rewrite getTenExponent_18. cbn [bind].
  rewrite Dec_quoTruncate_scaled. reflexivity.
Qed.

(** ** Lists *)

(** In a list whose images under [f] are pairwise distinct, two members
    with the same image are the same member. *)
Lemma NoDup_map_inv_eq {A B : Type} (f : A -> B) (l : list A) (x y : A) :
  NoDup (map f l) -> In x l -> In y l -> f x = f y -> x = y.
Proof.
  induction l as [|z l IH]; simpl; intros Hnd Hx Hy Hf; [contradiction|].
  inversion Hnd as [|? ? Hnotin Hnd']; subst.
  destruct Hx as [->|Hx], Hy as [->|Hy]; try reflexivity.
  - exfalso. apply Hnotin. rewrite Hf. now apply in_map.
  - exfalso. apply Hnotin. rewrite <- Hf. now apply in_map.
  - now apply IH.
Qed.

(** ** The amount queries *)

Section AmountQueries.

Variable s : Snapshot.
Variables a poolId : string.

(** The predicate both [find] calls use. *)
Lemma find_share_denom (coins : list CoinPretty) :
  let p := fun coin =>
    String_strictEq (coinMinimalDenom (currency coin))
                    (coinMinimalDenom (getShareCurrency poolId)) in
  match find p coins with
  | Some c => In c coins /\ denomOf c = "gamm/pool/" ++ poolId
  | None => forall c, In c coins -> denomOf c <> "gamm/pool/" ++ poolId
  end.
Proof.
  intros p. destruct (find p coins) as [c|] eqn:E.
  - apply find_some in E as [Hin Hp]. split; [exact Hin|].
    now apply String.eqb_eq in Hp.
  - intros c Hin Hd. apply (find_none _ _ E) in Hin.
    unfold p, String_strictEq in Hin. apply String.eqb_neq in Hin.
    now apply Hin.
Qed.

(** [getLockedGammShare] never throws, and its coin is of the pool's share
    denomination. *)
Lemma getLockedGammShare_total :
  exists c, getLockedGammShare s a poolId = Some c /\
            denomOf c = "gamm/pool/" ++ poolId.
Proof.
  unfold getLockedGammShare.
  pose proof (find_share_denom (lockedCoins s a)) as H; cbv zeta in H.
  destruct (find _ (lockedCoins s a)) as [c|].
  - exists c. now split.
  - rewrite CoinPretty_new_share. now eexists.
Qed.

Lemma getUnlockingGammShare_total :
  exists c, getUnlockingGammShare s a poolId = Some c /\
            denomOf c = "gamm/pool/" ++ poolId.
Proof.
  unfold getUnlockingGammShare.
  pose proof (find_share_denom (unlockingCoins s a)) as H; cbv zeta in H.
  destruct (find _ (unlockingCoins s a)) as [c|].
  - exists c. now split.
  - rewrite CoinPretty_new_share. now eexists.
Qed.

Lemma getAllGammShare_total :
  exists c, getAllGammShare s a poolId = Some c.
Proof.
  unfold getAllGammShare.
  destruct getLockedGammShare_total as (c & -> & _). now eexists.
Qed.

End AmountQueries.

(** ** Share currency *)

(** C8.  The share currency of a pool has minimal denomination
    "gamm/pool/" followed by the pool id, display denomination "GAMM/"
    followed by the pool id, and eighteen decimals; the denomination passes
    the prefix test of [getOwnPools], and stripping the prefix the way
    [getOwnPools] does yields the pool id again, so that a coin of that
    currency makes the loop of [getOwnPools] collect exactly the pool id. *)
Theorem getShareCurrency_roundtrip (poolId : string) :
  coinMinimalDenom (getShareCurrency poolId) = "gamm/pool/" ++ poolId /\
  coinDenom (getShareCurrency poolId) = "GAMM/" ++ poolId /\
  coinDecimals (getShareCurrency poolId) = 18 /\
  String_startsWith (coinMinimalDenom (getShareCurrency poolId))
                    "gamm/pool/" = true /\
  String_replace (coinMinimalDenom (getShareCurrency poolId))
                 "gamm/pool/" EmptyString = poolId /\
  forall n, collectPoolIds [shareCoin poolId n] = [poolId].
Proof.
  assert (Hs : String_startsWith ("gamm/pool/" ++ poolId) "gamm/pool/" = true)
    by apply String_startsWith_app.
  assert (Hr : String_replace ("gamm/pool/" ++ poolId) "gamm/pool/"
                 EmptyString = poolId)
    by apply String_replace_strip.
  cbn [getShareCurrency coinMinimalDenom coinDenom coinDecimals].
  do 5 (split; [first [assumption | reflexivity]|]).
  intros n. unfold collectPoolIds, collectStep, shareCoin.
  cbn [fold_left currency getShareCurrency coinMinimalDenom].
  now rewrite Hs, Hr.
Qed.

(** ** Amounts *)

(** C9.  When the locked-coin list of an address holds no record of the
    pool's share denomination, [getLockedGammShare] returns, without
    throwing, a coin of the pool's share currency whose amount is zero; and
    likewise [getUnlockingGammShare] for the unlocking-coin list. *)
Theorem missing_record_is_zero_share (s : Snapshot) (a poolId : string) :
  ((forall c, In c (lockedCoins s a) ->
              denomOf c <> "gamm/pool/" ++ poolId) ->
   exists c, getLockedGammShare s a poolId = Some c /\
             currency c = getShareCurrency poolId /\
             CoinPretty_toDec c = Dec_ofInt 0) /\
  ((forall c, In c (unlockingCoins s a) ->
              denomOf c <> "gamm/pool/" ++ poolId) ->
   exists c, getUnlockingGammShare s a poolId = Some c /\
             currency c = getShareCurrency poolId /\
             CoinPretty_toDec c = Dec_ofInt 0).
Proof.
  split; intros Hnone.
  - unfold getLockedGammShare.
    pose proof (find_share_denom poolId (lockedCoins s a)) as H.
    cbv zeta in H.
    destruct (find _ (lockedCoins s a)) as [c|].
    + destruct H as [Hin Hd]. now apply Hnone in Hin.
    + rewrite CoinPretty_new_share. exists (shareCoin poolId 0).
      repeat split.
  - unfold getUnlockingGammShare.
    pose proof (find_share_denom poolId (unlockingCoins s a)) as H.
    cbv zeta in H.
    destruct (find _ (unlockingCoins s a)) as [c|].
    + destruct H as [Hin Hd]. now apply Hnone in Hin.
    + rewrite CoinPretty_new_share. exists (shareCoin poolId 0).
      repeat split.
Qed.

Lemma missing_record_is_zero_share_witness :
  (exists c, getLockedGammShare lockedNotLoaded addressA "4" = Some c /\
             currency c = getShareCurrency "4" /\
             CoinPretty_toDec c = Dec_ofInt 0) /\
  (exists c, getUnlockingGammShare lockedNotLoaded addressA "4" = Some c /\
             currency c = getShareCurrency "4" /\
             CoinPretty_toDec c = Dec_ofInt 0).
Proof.
  destruct (missing_record_is_zero_share lockedNotLoaded addressA "4")
    as [Hl Hu].
  split.
  - apply Hl. simpl. intros c [].
  - apply Hu. simpl. intros c [<-|[]]. discriminate.
Defined.

(** C10.  The four amount queries do not read the pool registry: on two
    snapshots whose balance, locked-coin and unlocking-coin views agree
    for the address, whatever their pool registries hold, each of
    [getAvailableGammShare], [getLockedGammShare], [getUnlockingGammShare]
    and [getAllGammShare] returns the same result. *)
Theorem amounts_ignore_pool_registry (s1 s2 : Snapshot) (a poolId : string) :
  (forall c, getBalanceFromCurrency s1 a c = getBalanceFromCurrency s2 a c) ->
  lockedCoins s1 a = lockedCoins s2 a ->
  unlockingCoins s1 a = unlockingCoins s2 a ->
  getAvailableGammShare s1 a poolId = getAvailableGammShare s2 a poolId /\
  getLockedGammShare s1 a poolId = getLockedGammShare s2 a poolId /\
  getUnlockingGammShare s1 a poolId = getUnlockingGammShare s2 a poolId /\
  getAllGammShare s1 a poolId = getAllGammShare s2 a poolId.
Proof.
  intros Hb Hl Hu.
  unfold getAllGammShare, getAvailableGammShare, getLockedGammShare,
    getUnlockingGammShare.
  now rewrite Hb, Hl, Hu.
Qed.

Lemma amounts_ignore_pool_registry_witness :
  getPool scenario "3" <> getPool (withPools scenario (fun _ => None)) "3" /\
  getAllGammShare scenario addressA "3"
  = getAllGammShare (withPools scenario (fun _ => None)) addressA "3".
Proof.
  split; [discriminate|].
  apply (amounts_ignore_pool_registry
           scenario (withPools scenario (fun _ => None)) addressA "3");
    reflexivity.
Defined.



(** C7, as amended.  On a snapshot whose lockup views are consistent for
    the address (every unlocking record is covered by a locked record of
    its denomination with at least its amount, locked denominations are
    pairwise distinct, locked amounts are not negative), both amount
    queries return a coin and the unlocking amount is at most the locked
    amount. *)
Theorem unlocking_le_locked_when_consistent
    (s : Snapshot) (a poolId : string) :
  lockupConsistent s a ->
  exists u l,
    getUnlockingGammShare s a poolId = Some u /\
    getLockedGammShare s a poolId = Some l /\
    Dec_lte (CoinPretty_toDec u) (CoinPretty_toDec l) = true.
Proof.
  intros [Hcov Hdist Hpos].
  unfold getUnlockingGammShare, getLockedGammShare.
  pose proof (find_share_denom poolId (unlockingCoins s a)) as Hu.
  pose proof (find_share_denom poolId (lockedCoins s a)) as Hl.
  cbv zeta in Hu, Hl.
  destruct (find _ (unlockingCoins s a)) as [u|];
    destruct (find _ (lockedCoins s a)) as [l|];
    rewrite ?CoinPretty_new_share.
  - exists u, l. repeat split.
    destruct Hu as [Hinu Hdu], Hl as [Hinl Hdl].
    destruct (Hcov u Hinu) as (l' & Hinl' & Hd' & Hle).
    assert (l' = l) as <-; [|exact Hle].
    apply (NoDup_map_inv_eq denomOf (lockedCoins s a)); try assumption.
    congruence.
  - destruct Hu as [Hinu Hdu].
    destruct (Hcov u Hinu) as (l' & Hinl' & Hd' & _).
    exfalso. apply (Hl l' Hinl'). congruence.
  - exists (shareCoin poolId 0), l. repeat split.
    apply Hpos. apply Hl.
  - exists (shareCoin poolId 0), (shareCoin poolId 0). repeat split.
Qed.

Lemma unlocking_le_locked_when_consistent_witness :
  exists u l,
    getUnlockingGammShare scenario addressA "3" = Some u /\
    getLockedGammShare scenario addressA "3" = Some l /\
    Dec_lte (CoinPretty_toDec u) (CoinPretty_toDec l) = true.
Proof.
  apply (unlocking_le_locked_when_consistent scenario addressA "3").
  constructor; simpl.
  - intros u [<-|[]]. exists (shareCoin "3" 50).
    repeat split. now left.
  - repeat constructor. intros [].
  - intros l [<-|[]]. reflexivity.
Defined.

(** C7, as stated, fails: the two amounts are read from two independent
    lists.  With the unlocking view holding 20 units of pool 3 and the
    locked view holding none, the unlocking amount is 20 and the locked
    amount is 0. *)
Lemma unlocking_exceeds_locked :
  getUnlockingGammShare lockedNotLoaded addressA "3"
  = Some (shareCoin "3" 20) /\
  getLockedGammShare lockedNotLoaded addressA "3"
  = Some (shareCoin "3" 0) /\
  Dec_lte (CoinPretty_toDec (shareCoin "3" 20))
          (CoinPretty_toDec (shareCoin "3" 0)) = false.
Proof.
  split; [reflexivity|]. split; [|reflexivity].
  unfold getLockedGammShare. simpl find.
  apply CoinPretty_new_share.
Qed.

(** ** Ratios and values *)

(** C1.  When the pool registry has no entry for the pool id, the three
    ratio queries and [getLockedGammShareValue] return, without throwing, a
    value flagged not ready, which no ready value equals (a fresh zero rate
    or price in particular), and [getShareAssets] returns the empty
    list. *)
Theorem unknown_pool_not_ready (s : Snapshot) (a poolId : string)
    (poolLiqudity : PricePretty) (fiat : FiatCurrency) :
  getPool s poolId = None ->
  notReadyRate (getLockedGammShareRatio s a poolId) /\
  notReadyRate (getAvailableGammShareRatio s a poolId) /\
  notReadyRate (getAllGammShareRatio s a poolId) /\
  notReadyPrice (getLockedGammShareValue s a poolId poolLiqudity fiat) /\
  (forall x, notReadyRate x -> x <> Some (RatePretty_new (Dec_ofInt 0))) /\
  (forall x, notReadyPrice x ->
             x <> Some (PricePretty_new fiat (Dec_ofInt 0))) /\
  getShareAssets s a poolId = Some [].
Proof.
  intros Hpool.
  unfold getLockedGammShareRatio, getAvailableGammShareRatio,
    getAllGammShareRatio, getLockedGammShareValue, getShareAssets.
  unfold getAllGammShareRatio. rewrite Hpool.
  repeat split.
  - now eexists.
  - now eexists.
  - now eexists.
  - now eexists.
  - intros x (r & -> & Hr) E. injection E as ->. discriminate.
  - intros x (p & -> & Hp) E. injection E as ->. discriminate.
Qed.

Lemma unknown_pool_not_ready_witness :
  notReadyRate (getLockedGammShareRatio scenario addressA "7") /\
  getShareAssets scenario addressA "7" = Some [].
Proof.
  destruct (unknown_pool_not_ready scenario addressA "7"
              (PricePretty_new (mkFiatCurrency "usd" "$" 2 "en-US")
                               (Dec_ofInt 1000))
              (mkFiatCurrency "usd" "$" 2 "en-US"))
    as (H1 & _ & _ & _ & _ & _ & H7).
  - reflexivity.
  - split; assumption.
Defined.

(** C3.  When the pool is registered and its total share is the zero
    amount, [getAllGammShareRatio] returns, without throwing, the ready
    rate built from the total share itself, whose value is zero. *)
Theorem getAllGammShareRatio_zero_totalShare
    (s : Snapshot) (a poolId : string) (pool : Pool) :
  getPool s poolId = Some pool ->
  Dec_isZero (CoinPretty_toDec (totalShare pool)) = true ->
  exists r,
    getAllGammShareRatio s a poolId = Some r /\
    r = RatePretty_new (CoinPretty_toDec (totalShare pool)) /\
    RatePretty_isReady r = true /\
    RatePretty_toDec r = Dec_ofInt 0.
Proof.
  intros Hpool Hzero.
  unfold getAllGammShareRatio. rewrite Hpool.
  destruct (getAllGammShare_total s a poolId) as (share & ->).
  cbn [bind]. rewrite Hzero.
  eexists; repeat split.
  now apply Dec_isZero_true.
Qed.

Lemma getAllGammShareRatio_zero_totalShare_witness :
  exists r,
    getAllGammShareRatio emptyPoolSnapshot addressA "3" = Some r /\
    RatePretty_isReady r = true /\
    RatePretty_toDec r = Dec_ofInt 0.
Proof.
  destruct (getAllGammShareRatio_zero_totalShare
              emptyPoolSnapshot addressA "3" (poolWithShares "3" 0))
    as (r & Hr & _ & Hready & Hdec).
  - reflexivity.
  - reflexivity.
  - exists r. repeat split; assumption.
Defined.

(** C4.  When the pool is registered and its total share is the zero
    amount, [getLockedGammShareRatio] and [getAvailableGammShareRatio]
    return, without throwing (no division takes place), the ready zero
    rate [new RatePretty(0)]. *)
Theorem locked_available_ratio_zero_totalShare
    (s : Snapshot) (a poolId : string) (pool : Pool) :
  getPool s poolId = Some pool ->
  Dec_isZero (CoinPretty_toDec (totalShare pool)) = true ->
  getLockedGammShareRatio s a poolId
  = Some (RatePretty_new (Dec_ofInt 0)) /\
  getAvailableGammShareRatio s a poolId
  = Some (RatePretty_new (Dec_ofInt 0)) /\
  RatePretty_isReady (RatePretty_new (Dec_ofInt 0)) = true /\
  Dec_isZero (RatePretty_toDec (RatePretty_new (Dec_ofInt 0))) = true.
Proof.
  intros Hpool Hzero.
  unfold getLockedGammShareRatio, getAvailableGammShareRatio.
  rewrite Hpool, Hzero. repeat split.
Qed.

Lemma locked_available_ratio_zero_totalShare_witness :
  getLockedGammShareRatio emptyPoolSnapshot addressA "3"
  = Some (RatePretty_new (Dec_ofInt 0)) /\
  getAvailableGammShareRatio emptyPoolSnapshot addressA "3"
  = Some (RatePretty_new (Dec_ofInt 0)).
Proof.
  destruct (locked_available_ratio_zero_totalShare
              emptyPoolSnapshot addressA "3" (poolWithShares "3" 0))
    as (Hl & Ha & _).
  - reflexivity.
  - reflexivity.
  - split; assumption.
Defined.


(** ** [Set] and [sort] *)

Lemma existsb_eqb_In (x : string) (l : list string) :
  existsb (String.eqb x) l = true <-> In x l.
Proof.
  rewrite existsb_exists. split.
  - intros (y & Hin & Heq). apply String.eqb_eq in Heq. now subst.
  - intros Hin. exists x. split; [exact Hin | apply String.eqb_refl].
Qed.

Lemma Set_add_NoDup (members : list string) (x : string) :
  NoDup members -> NoDup (Set_add members x).
Proof.
  intros Hnd. unfold Set_add.
  destruct (existsb (String.eqb x) members) eqn:E; [exact Hnd|].
  apply NoDup_app; [exact Hnd | repeat constructor; intros [] |].
  intros y Hy [<-|[]].
  apply existsb_eqb_In in Hy. congruence.
Qed.

Lemma Set_add_In (members : list string) (x y : string) :
  In y (Set_add members x) <-> In y members \/ y = x.
Proof.
  unfold Set_add.
  destruct (existsb (String.eqb x) members) eqn:E.
  - apply existsb_eqb_In in E. split; [now left|].
    intros [H| ->]; assumption.
  - rewrite in_app_iff. simpl. intuition congruence.
Qed.

Lemma Set_fold_NoDup (xs members : list string) :
  NoDup members -> NoDup (fold_left Set_add xs members).
Proof.
  revert members; induction xs as [|x xs IH]; intros members Hnd; simpl.
  - exact Hnd.
  - apply IH. now apply Set_add_NoDup.
Qed.

Lemma Set_fold_In (xs members : list string) (y : string) :
  In y (fold_left Set_add xs members) <-> In y members \/ In y xs.
Proof.
  revert members; induction xs as [|x xs IH]; intros members; simpl.
  - tauto.
  - rewrite IH, Set_add_In. intuition congruence.
Qed.

(** A [Set] built from an array holds each member of the array once. *)
Lemma Set_from_spec (xs : list string) :
  NoDup (Set_from xs) /\ forall y, In y (Set_from xs) <-> In y xs.
Proof.
  unfold Set_from. split.
  - apply Set_fold_NoDup. constructor.
  - intros y. rewrite Set_fold_In. simpl. tauto.
Qed.





Section Sorting.

Context {A : Type}.
Variable comparefn : A -> A -> Z.

Lemma Array_sort_takeRun_app (isDescending : bool) (prev : A)
    (xs : list A) :
  (fst (Array_sort_takeRun comparefn isDescending prev xs) ++
   snd (Array_sort_takeRun comparefn isDescending prev xs))%list = xs.
Proof.
  revert prev; induction xs as [|x xs IH]; intros prev; simpl.
  - reflexivity.
  - destruct (if isDescending then _ else _); [reflexivity|].
    specialize (IH x).
    destruct (Array_sort_takeRun comparefn isDescending x xs) as [run rest].
    simpl in *. now rewrite IH.
Qed.

Lemma Array_sort_countAndMakeRun_perm (xs : list A) :
  Permutation (fst (Array_sort_countAndMakeRun comparefn xs) ++
               snd (Array_sort_countAndMakeRun comparefn xs)) xs.
Proof.
  unfold Array_sort_countAndMakeRun.
  destruct xs as [|x0 [|x1 xs]]; cbn [fst snd];
    try (now rewrite ?app_nil_r).
  pose proof (Array_sort_takeRun_app (comparefn x1 x0 <? 0) x1 xs) as H.
  destruct (Array_sort_takeRun comparefn (comparefn x1 x0 <? 0) x1 xs)
    as [run rest].
  cbn [fst snd] in H. subst xs.
  destruct (comparefn x1 x0 <? 0); cbn [fst snd].
  - change (x0 :: x1 :: run ++ rest)%list
      with ((x0 :: x1 :: run) ++ rest)%list.
    apply Permutation_app_tail. symmetry. apply Permutation_rev.
  - reflexivity.
Qed.

Lemma Array_sort_insert_perm (x : A) (sorted : list A) :
  Permutation (Array_sort_insert comparefn x sorted) (x :: sorted).
Proof.
  unfold Array_sort_insert; cbv zeta.
  set (left := Array_sort_search _ _ _ _ _ _).
  rewrite <- Permutation_middle. now rewrite firstn_skipn.
Qed.

Lemma Array_sort_fold_perm (xs sorted : list A) :
  Permutation
    (fold_left (fun acc x => Array_sort_insert comparefn x acc) xs sorted)
    (sorted ++ xs).
Proof.
  revert sorted; induction xs as [|x xs IH]; intros sorted; simpl.
  - now rewrite app_nil_r.
  - rewrite IH, Array_sort_insert_perm. simpl.
    apply Permutation_middle.
Qed.

(** Whatever the comparator, sorting rearranges the array. *)
Lemma Array_sort_perm (xs : list A) :
  Permutation (Array_sort comparefn xs) xs.
Proof.
  unfold Array_sort.
  pose proof (Array_sort_countAndMakeRun_perm xs) as H.
  destruct (Array_sort_countAndMakeRun comparefn xs) as [run rest].
  rewrite Array_sort_fold_perm. exact H.
Qed.

(** The comparator orders the elements satisfying [P] along a transitive
    relation [le]: a negative answer puts its first argument first, any
    other answer its second. *)
Variable P : A -> Prop.
Variable le : A -> A -> Prop.
Hypothesis le_trans : forall x y z, le x y -> le y z -> le x z.
Hypothesis compare_neg :
  forall x e, P x -> P e -> comparefn x e < 0 -> le x e.
Hypothesis compare_nonneg :
  forall x e, P x -> P e -> 0 <= comparefn x e -> le e x.









End Sorting.

(** ** Numbers *)



(** ** Owned pools *)

(** The loop appends to what it has collected so far. *)
Lemma collectPoolIds_fold (coins : list CoinPretty) (result : list string) :
  fold_left collectStep coins result = (result ++ collectPoolIds coins)%list.
Proof.
  unfold collectPoolIds.
  revert result; induction coins as [|bal coins IH]; intros result.
  - simpl. now rewrite app_nil_r.
  - cbn [fold_left]. rewrite IH, (IH (collectStep [] bal)).
    unfold collectStep. destruct (String_startsWith _ _); simpl.
    + now rewrite <- app_assoc.
    + reflexivity.
Qed.

(** The loop collects the id of every coin of a denomination
    "gamm/pool/<id>", and nothing else. *)
Lemma collectPoolIds_In (coins : list CoinPretty) (id : string) :
  In id (collectPoolIds coins) <->
  exists coin, In coin coins /\ denomOf coin = "gamm/pool/" ++ id.
Proof.
  induction coins as [|bal coins IH].
  - simpl. split; [contradiction | intros (c & [] & _)].
  - unfold collectPoolIds. cbn [fold_left]. rewrite collectPoolIds_fold.
    rewrite in_app_iff, IH. unfold collectStep. fold (denomOf bal).
    destruct (String_startsWith (denomOf bal) "gamm/pool/") eqn:E.
    + pose proof (String_startsWith_inv _ _ E) as Hd.
      rewrite (String_replace_prefix _ _ EmptyString E).
      change (EmptyString ++ ?x) with x.
      cbn [In].
      split.
      * intros [[<-|[]]|(c & Hin & Hc)].
        -- exists bal. split; [now left | exact Hd].
        -- exists c. split; [now right | exact Hc].
      * intros (c & [<-|Hin] & Hc).
        -- left. left. rewrite Hc. apply String_drop_app.
        -- right. exists c. now split.
    + cbn [In]. split.
      * intros [[]|(c & Hin & Hc)]. exists c. split; [now right | exact Hc].
      * intros (c & [<-|Hin] & Hc).
        -- rewrite Hc, String_startsWith_app in E. discriminate.
        -- right. exists c. now split.
Qed.



(** * Further properties of the queries *)

(** ** Arithmetic that cannot throw *)

Lemma Dec_isZero_false (d : Dec) : Dec_isZero d = false -> dec_int d <> 0.
Proof. unfold Dec_isZero. now rewrite Z.eqb_neq. Qed.

Lemma Dec_quo_some (a b : Dec) :
  Dec_isZero b = false -> exists q, Dec_quo a b = Some q.
Proof.
  intros H. unfold Dec_quo. fold (Dec_isZero b). rewrite H. now eexists.
Qed.

Lemma Dec_chopPrecisionAndRound_0 : Dec_chopPrecisionAndRound 0 = 0.
Proof. reflexivity. Qed.

Lemma Dec_quo_zero_l (b : Dec) :
  Dec_isZero b = false -> Dec_quo (mkDec 0) b = Some (mkDec 0).
Proof.
  intros H. unfold Dec_quo. fold (Dec_isZero b). rewrite H.
  cbn [dec_int]. rewrite !Z.mul_0_l, Z.quot_0_l by now apply Dec_isZero_false.
  reflexivity.
Qed.

Lemma Dec_mul_zero_r (a : Dec) : Dec_mul a (mkDec 0) = mkDec 0.
Proof.
  unfold Dec_mul. cbn [dec_int]. now rewrite Z.mul_0_r.
Qed.

Lemma Dec_add_zero_r (a : Dec) : Dec_add a (mkDec 0) = a.
Proof.
  destruct a as [z]. unfold Dec_add. cbn [dec_int]. now rewrite Z.add_0_r.
Qed.

Lemma getTenExponent_2 :
  DecUtils_getTenExponentNInPrecisionRange 2 = Some (Dec_ofInt 100).
Proof. reflexivity. Qed.

Lemma Dec_isZero_hundred : Dec_isZero (Dec_ofInt 100) = false.
Proof. reflexivity. Qed.

(** Moving the decimal point two places never throws: it divides by one
    hundred. *)
Lemma IntPretty_moveDecimalPointLeft_2 (p : IntPretty) :
  exists d,
    Dec_quoTruncate (int_dec p) (Dec_ofInt 100) = Some d /\
    IntPretty_moveDecimalPointLeft p 2
    = Some {| int_dec := d; int_ready := int_ready p |}.
Proof.
  unfold IntPretty_moveDecimalPointLeft. rewrite getTenExponent_2.
  cbn [bind]. unfold Dec_quoTruncate at 1 2.
  fold (Dec_isZero (Dec_ofInt 100)). rewrite Dec_isZero_hundred.
  eexists. split; reflexivity.
Qed.

Lemma CoinPretty_quo_some (c : CoinPretty) (t : Dec) :
  Dec_isZero t = false ->
  exists q,
    Dec_quo (CoinPretty_toDec c) t = Some q /\
    CoinPretty_quo c t
    = Some {| currency := currency c;
              coin_int := {| int_dec := q;
                             int_ready := int_ready (coin_int c) |} |}.
Proof.
  intros H. destruct (Dec_quo_some (CoinPretty_toDec c) t H) as [q Hq].
  exists q. split; [exact Hq|].
  unfold CoinPretty_quo, IntPretty_quo. unfold CoinPretty_toDec in Hq.
  now rewrite Hq.
Qed.

(** ** Ratios *)

(** X1.  The three ratio queries never throw, whatever the snapshot: a
    division is reached only with a total share that is not zero.  The rate
    they return is flagged ready exactly when the pool is registered. *)
Theorem ratio_queries_return (s : Snapshot) (a poolId : string) :
  let registered := exists pool, getPool s poolId = Some pool in
  (exists r, getLockedGammShareRatio s a poolId = Some r /\
             (RatePretty_isReady r = true <-> registered)) /\
  (exists r, getAvailableGammShareRatio s a poolId = Some r /\
             (RatePretty_isReady r = true <-> registered)) /\
  (exists r, getAllGammShareRatio s a poolId = Some r /\
             (RatePretty_isReady r = true <-> registered)).
Proof.
  intros registered. unfold registered.
  unfold getLockedGammShareRatio, getAvailableGammShareRatio,
    getAllGammShareRatio.
  destruct (getAllGammShare_total s a poolId) as (all & Hall).
  destruct (getLockedGammShare_total s a poolId) as (locked & Hlocked & _).
  rewrite Hall, Hlocked.
  destruct (getPool s poolId) as [pool|].
  - assert (Hreg : true = true <-> exists pool0, Some pool = Some pool0)
      by (split; [now eexists | reflexivity]).
    cbn [bind].
    destruct (Dec_isZero (CoinPretty_toDec (totalShare pool))) eqn:Hz.
    + repeat split; eexists; (split; [reflexivity | exact Hreg]).
    + destruct (CoinPretty_quo_some locked _ Hz) as (q1 & _ & ->).
      destruct (CoinPretty_quo_some (getAvailableGammShare s a poolId) _ Hz)
        as (q2 & _ & ->).
      destruct (CoinPretty_quo_some all _ Hz) as (q3 & _ & ->).
      cbn [bind]. unfold CoinPretty_moveDecimalPointLeft. cbn [coin_int].
      match goal with
      | |- context [IntPretty_moveDecimalPointLeft ?p 2] =>
          destruct (IntPretty_moveDecimalPointLeft_2 p) as (d & _ & ->)
      end.
      cbn [bind].
      repeat split; eexists; (split; [reflexivity | exact Hreg]).
  - assert (Hno : false = true <-> exists pool0, @None Pool = Some pool0)
      by (split; [discriminate | intros [? ?]; discriminate]).
    repeat split; eexists; (split; [reflexivity | exact Hno]).
Qed.

(** X2.  [getLockedGammShareValue] never throws.  For a registered pool
    whose total share is not zero, the price returned is the pool liquidity
    times the locked fraction: it is in the fiat currency of the liquidity
    (not in the [fiatCurrency] argument) and it is ready exactly when the
    liquidity is.  For a registered pool with a zero total share it is the
    ready zero price in the [fiatCurrency] argument. *)
Theorem locked_value_returns (s : Snapshot) (a poolId : string)
    (poolLiqudity : PricePretty) (fiat : FiatCurrency) :
  exists v,
    getLockedGammShareValue s a poolId poolLiqudity fiat = Some v /\
    forall pool, getPool s poolId = Some pool ->
      (Dec_isZero (CoinPretty_toDec (totalShare pool)) = false ->
       fiatCurrency v = fiatCurrency poolLiqudity /\
       PricePretty_isReady v = PricePretty_isReady poolLiqudity) /\
      (Dec_isZero (CoinPretty_toDec (totalShare pool)) = true ->
       v = PricePretty_new fiat (Dec_ofInt 0)).
Proof.
  unfold getLockedGammShareValue.
  destruct (getLockedGammShare_total s a poolId) as (locked & -> & _).
  destruct (getPool s poolId) as [pool|].
  - destruct (Dec_isZero (CoinPretty_toDec (totalShare pool))) eqn:Hz.
    + eexists. split; [reflexivity|].
      intros pool' [= <-]. rewrite Hz. split; [discriminate | reflexivity].
    + destruct (CoinPretty_quo_some locked _ Hz) as (q & _ & Hq).
      cbn [bind]. rewrite Hq. cbn [bind].
      eexists. split; [reflexivity|].
      intros pool' [= <-]. rewrite Hz. split; [|discriminate].
      intros _. split; reflexivity.
  - eexists. split; [reflexivity|]. discriminate.
Qed.

Lemma locked_value_returns_witness :
  exists v,
    getLockedGammShareValue scenario addressA "3"
      (PricePretty_ready
         (PricePretty_new (mkFiatCurrency "eur" "E" 2 "de-DE")
                          (Dec_ofInt 1000)) false)
      (mkFiatCurrency "usd" "$" 2 "en-US") = Some v /\
    fiatCurrency v = mkFiatCurrency "eur" "E" 2 "de-DE" /\
    PricePretty_isReady v = false.
Proof.
  destruct (locked_value_returns scenario addressA "3"
              (PricePretty_ready
                 (PricePretty_new (mkFiatCurrency "eur" "E" 2 "de-DE")
                                  (Dec_ofInt 1000)) false)
              (mkFiatCurrency "usd" "$" 2 "en-US")) as (v & Hv & Hcases).
  exists v. split; [exact Hv|].
  apply (proj1 (Hcases (poolWithShares "3" 100) eq_refl)). reflexivity.
Defined.

(** ** Missing and repeated records *)

Lemma getLockedGammShare_missing (s : Snapshot) (a poolId : string) :
  (forall c, In c (lockedCoins s a) ->
             denomOf c <> "gamm/pool/" ++ poolId) ->
  getLockedGammShare s a poolId = Some (shareCoin poolId 0).
Proof.
  intros Hnone. unfold getLockedGammShare.
  pose proof (find_share_denom poolId (lockedCoins s a)) as H.
  cbv zeta in H.
  destruct (find _ (lockedCoins s a)) as [c|].
  - destruct H as [Hin Hd]. now apply Hnone in Hin.
  - apply CoinPretty_new_share.
Qed.

(** X3.  With no locked record of the pool's share denomination, the
    locked ratio and the locked value are zero amounts, whatever the pool
    registry and the pool liquidity hold. *)
Theorem nothing_locked_zero_ratio_and_value (s : Snapshot)
    (a poolId : string) (poolLiqudity : PricePretty) (fiat : FiatCurrency) :
  (forall c, In c (lockedCoins s a) ->
             denomOf c <> "gamm/pool/" ++ poolId) ->
  (exists r, getLockedGammShareRatio s a poolId = Some r /\
             RatePretty_toDec r = Dec_ofInt 0) /\
  (exists v, getLockedGammShareValue s a poolId poolLiqudity fiat = Some v /\
             PricePretty_toDec v = Dec_ofInt 0).
Proof.
  intros Hnone.
  unfold getLockedGammShareRatio, getLockedGammShareValue.
  rewrite (getLockedGammShare_missing s a poolId Hnone).
  destruct (getPool s poolId) as [pool|].
  - destruct (Dec_isZero (CoinPretty_toDec (totalShare pool))) eqn:Hz.
    + split; eexists; split; reflexivity.
    + cbn [bind]. unfold CoinPretty_quo, IntPretty_quo, shareCoin.
      cbn [coin_int int_dec IntPretty_new].
      rewrite (Dec_quo_zero_l _ Hz). cbn [bind].
      split; eexists; (split; [reflexivity|]).
      * reflexivity.
      * unfold PricePretty_trim, PricePretty_mul, PricePretty_toDec,
          IntPretty_mul, IntPretty_toDec, IntPretty_new, CoinPretty_toDec.
        cbn [price_int int_dec coin_int]. apply Dec_mul_zero_r.
  - split; eexists; split; reflexivity.
Qed.

Lemma nothing_locked_zero_ratio_and_value_witness :
  exists r, getLockedGammShareRatio scenario addressA "4" = Some r /\
            RatePretty_toDec r = Dec_ofInt 0.
Proof.
  apply (nothing_locked_zero_ratio_and_value scenario addressA "4"
           (PricePretty_new (mkFiatCurrency "usd" "$" 2 "en-US")
                            (Dec_ofInt 1000))
           (mkFiatCurrency "usd" "$" 2 "en-US")).
  simpl. intros c [<-|[]]. discriminate.
Defined.

(** X4.  The coin [getAllGammShare] returns carries the currency and the
    ready flag of the available coin; and with no locked record of the
    pool's share denomination, when the balance view answers with a coin of
    the asked denomination, its amount is the available amount. *)
Theorem getAllGammShare_follows_available (s : Snapshot) (a poolId : string) :
  exists total,
    getAllGammShare s a poolId = Some total /\
    currency total = currency (getAvailableGammShare s a poolId) /\
    CoinPretty_isReady total
    = CoinPretty_isReady (getAvailableGammShare s a poolId) /\
    ((forall c, In c (lockedCoins s a) ->
                denomOf c <> "gamm/pool/" ++ poolId) ->
     denomOf (getAvailableGammShare s a poolId) = "gamm/pool/" ++ poolId ->
     CoinPretty_toDec total
     = CoinPretty_toDec (getAvailableGammShare s a poolId)).
Proof.
  destruct (getLockedGammShare_total s a poolId) as (locked & Hl & Hd).
  exists (CoinPretty_add (getAvailableGammShare s a poolId) locked).
  split; [unfold getAllGammShare; now rewrite Hl|].
  unfold CoinPretty_add.
  destruct (negb _) eqn:E; (split; [reflexivity|]); (split; [reflexivity|]).
  - reflexivity.
  - intros Hnone Ha.
    rewrite (getLockedGammShare_missing s a poolId Hnone) in Hl.
    injection Hl as <-.
    unfold CoinPretty_toDec, IntPretty_add, shareCoin.
    cbn [coin_int int_dec IntPretty_new]. apply Dec_add_zero_r.
Qed.

Lemma getAllGammShare_follows_available_witness :
  exists total,
    getAllGammShare threePools addressA "10" = Some total /\
    CoinPretty_toDec total = mkDec 1.
Proof.
  destruct (getAllGammShare_follows_available threePools addressA "10")
    as (total & Ht & _ & _ & Hamount).
  exists total. split; [exact Ht|].
  rewrite Hamount; [reflexivity | | reflexivity].
  simpl. intros c [<-|[<-|[]]]; discriminate.
Defined.

Lemma find_first_match {A : Type} (f : A -> bool) (pre rest : list A)
    (x : A) :
  (forall y, In y pre -> f y = false) -> f x = true ->
  find f (pre ++ x :: rest) = Some x.
Proof.
  intros Hpre Hx. induction pre as [|y pre IH]; simpl.
  - now rewrite Hx.
  - rewrite (Hpre y) by now left. apply IH.
    intros z Hz. apply Hpre. now right.
Qed.

(** X5.  When several locked (resp. unlocking) records are of the pool's
    share denomination, the query returns the first of them: the amounts
    of the records are not added up. *)
Theorem first_record_is_returned (s : Snapshot) (a poolId : string)
    (pre rest : list CoinPretty) (c : CoinPretty) :
  denomOf c = "gamm/pool/" ++ poolId ->
  (forall x, In x pre -> denomOf x <> "gamm/pool/" ++ poolId) ->
  (lockedCoins s a = (pre ++ c :: rest)%list ->
   getLockedGammShare s a poolId = Some c) /\
  (unlockingCoins s a = (pre ++ c :: rest)%list ->
   getUnlockingGammShare s a poolId = Some c).
Proof.
  intros Hc Hpre.
  assert (Hfind :
    find (fun coin =>
            String_strictEq (coinMinimalDenom (currency coin))
              (coinMinimalDenom (getShareCurrency poolId)))
         (pre ++ c :: rest) = Some c).
  { apply find_first_match.
    - intros y Hy. apply String.eqb_neq. now apply Hpre.
    - apply String.eqb_eq. exact Hc. }
  split; intros Heq.
  - unfold getLockedGammShare. now rewrite Heq, Hfind.
  - unfold getUnlockingGammShare. now rewrite Heq, Hfind.
Qed.

Lemma first_record_is_returned_witness :
  getLockedGammShare twoRecords addressA "3" = Some (shareCoin "3" 7).
Proof.
  assert (Hpre : forall x, In x [shareCoin "5" 1] ->
                           denomOf x <> "gamm/pool/3").
  { intros x [<-|[]]. discriminate. }
  apply (proj1 (first_record_is_returned twoRecords addressA "3"
                  [shareCoin "5" 1] [shareCoin "3" 9] (shareCoin "3" 7)
                  eq_refl Hpre)).
  reflexivity.
Defined.

(** ** Owned pools and share denominations *)

(** Membership in the list of owned pools. *)
Lemma getOwnPools_In (s : Snapshot) (a id : string) :
  In id (getOwnPools s a) <->
  exists coin,
    In coin (positiveBalances s a ++ lockedCoins s a)%list /\
    denomOf coin = "gamm/pool/" ++ id.
Proof.
  unfold getOwnPools; cbv zeta.
  rewrite <- collectPoolIds_In.
  set (ids := collectPoolIds (positiveBalances s a ++ lockedCoins s a)).
  destruct (Set_from_spec ids) as [_ Hin].
  pose proof (Array_sort_perm comparePoolIds (Set_from ids)) as Hperm.
  split; intros H.
  - apply Hin. eapply Permutation_in; [exact Hperm | exact H].
  - eapply Permutation_in; [symmetry; exact Hperm | now apply Hin].
Qed.

(** X6.  A pool in which the address has a locked share that is not zero
    is among its owned pools. *)
Theorem locked_share_pool_is_owned (s : Snapshot) (a poolId : string)
    (c : CoinPretty) :
  getLockedGammShare s a poolId = Some c ->
  Dec_isZero (CoinPretty_toDec c) = false ->
  In poolId (getOwnPools s a).
Proof.
  unfold getLockedGammShare. intros Hc Hnz.
  pose proof (find_share_denom poolId (lockedCoins s a)) as H.
  cbv zeta in H.
  destruct (find _ (lockedCoins s a)) as [l|].
  - injection Hc as <-. destruct H as [Hin Hd].
    apply getOwnPools_In. exists l. split; [|exact Hd].
    apply in_or_app. now right.
  - rewrite CoinPretty_new_share in Hc. injection Hc as <-. discriminate.
Qed.

Lemma locked_share_pool_is_owned_witness :
  In "3" (getOwnPools scenario addressA).
Proof.
  apply (locked_share_pool_is_owned scenario addressA "3" (shareCoin "3" 50));
    reflexivity.
Defined.

(** X7.  The list of owned pools is empty exactly when no positive
    balance and no locked coin of the address has a denomination starting
    with "gamm/pool/". *)
Theorem getOwnPools_empty_iff (s : Snapshot) (a : string) :
  getOwnPools s a = [] <->
  forall coin,
    In coin (positiveBalances s a ++ lockedCoins s a)%list ->
    String_startsWith (denomOf coin) "gamm/pool/" = false.
Proof.
  split.
  - intros Hnil coin Hin.
    destruct (String_startsWith (denomOf coin) "gamm/pool/") eqn:E;
      [|reflexivity].
    exfalso.
    assert (Hid : In (String_drop (String.length "gamm/pool/") (denomOf coin))
                     (getOwnPools s a)).
    { apply getOwnPools_In. exists coin. split; [exact Hin|].
      now apply String_startsWith_inv. }
    rewrite Hnil in Hid. exact Hid.
  - intros Hno. destruct (getOwnPools s a) as [|id ids] eqn:E;
      [reflexivity|].
    exfalso.
    assert (Hid : In id (getOwnPools s a)) by (rewrite E; now left).
    apply getOwnPools_In in Hid as (coin & Hin & Hd).
    apply Hno in Hin. rewrite Hd, String_startsWith_app in Hin.
    discriminate.
Qed.

Lemma getOwnPools_empty_iff_witness :
  getOwnPools lockedNotLoaded addressA = [].
Proof.
  apply (proj2 (getOwnPools_empty_iff lockedNotLoaded addressA)).
  simpl. intros coin [].
Defined.

(** X8.  Decoding then encoding a share denomination: for a denomination
    that starts with "gamm/pool/", the share currency of the id that
    [getOwnPools] extracts from it has that denomination again. *)
Theorem share_denom_decode_encode (denom : string) :
  String_startsWith denom "gamm/pool/" = true ->
  coinMinimalDenom
    (getShareCurrency (String_replace denom "gamm/pool/" EmptyString))
  = denom.
Proof.
  intros H. rewrite (String_replace_prefix _ _ EmptyString H).
  change (EmptyString ++ ?x) with x.
  cbn [getShareCurrency coinMinimalDenom].
  symmetry. now apply String_startsWith_inv.
Qed.

Lemma share_denom_decode_encode_witness :
  coinMinimalDenom
    (getShareCurrency
       (String_replace "gamm/pool/gamm/pool/12" "gamm/pool/" EmptyString))
  = "gamm/pool/gamm/pool/12".
Proof.
  apply (share_denom_decode_encode "gamm/pool/gamm/pool/12"). reflexivity.
Defined.

Lemma share_denom_inj (p q : string) :
  "gamm/pool/" ++ p = "gamm/pool/" ++ q -> p = q.
Proof.
  intros H.
  rewrite <- (String_drop_app "gamm/pool/" p), H.
  apply String_drop_app.
Qed.

(** X9.  Share currencies tell pools apart: two pool ids with the same
    share currency are the same id, and the coins the locked and unlocking
    queries return for two different pools are of different
    denominations. *)
Theorem shares_of_distinct_pools_differ (s : Snapshot) (a p q : string) :
  (getShareCurrency p = getShareCurrency q -> p = q) /\
  (p <> q ->
   forall c d,
     (getLockedGammShare s a p = Some c ->
      getLockedGammShare s a q = Some d -> denomOf c <> denomOf d) /\
     (getUnlockingGammShare s a p = Some c ->
      getUnlockingGammShare s a q = Some d -> denomOf c <> denomOf d)).
Proof.
  split.
  - intros H. apply share_denom_inj.
    exact (f_equal coinMinimalDenom H).
  - intros Hpq c d.
    destruct (getLockedGammShare_total s a p) as (c1 & Hc1 & Hd1).
    destruct (getLockedGammShare_total s a q) as (d1 & Hd1' & Hd2).
    destruct (getUnlockingGammShare_total s a p) as (c2 & Hc2 & Hd3).
    destruct (getUnlockingGammShare_total s a q) as (d2 & Hd2' & Hd4).
    split; intros Hc Hd E; apply Hpq, share_denom_inj; congruence.
Qed.

Lemma shares_of_distinct_pools_differ_witness :
  denomOf (shareCoin "3" 50) <> denomOf (shareCoin "4" 0).
Proof.
  assert (Hne : "3" <> "4") by discriminate.
  apply (proj1 (proj2 (shares_of_distinct_pools_differ
                         scenario addressA "3" "4") Hne
                  (shareCoin "3" 50) (shareCoin "4" 0))).
  - reflexivity.
  - vm_compute. reflexivity.
Defined.

(** ** The two scales of the ratios *)

(** X10.  The locked ratio and the available ratio are not on the same
    scale: [getLockedGammShareRatio] moves the decimal point of the
    fraction two places to the left and [getAvailableGammShareRatio] does
    not.  For a registered pool with a total share that is not zero and
    equal locked and available amounts, the locked ratio is the available
    ratio divided by one hundred. *)
Theorem locked_ratio_is_hundredth_of_available (s : Snapshot)
    (a poolId : string) (pool : Pool) (locked : CoinPretty) :
  getPool s poolId = Some pool ->
  Dec_isZero (CoinPretty_toDec (totalShare pool)) = false ->
  getLockedGammShare s a poolId = Some locked ->
  CoinPretty_toDec locked
  = CoinPretty_toDec (getAvailableGammShare s a poolId) ->
  exists rl ra,
    getLockedGammShareRatio s a poolId = Some rl /\
    getAvailableGammShareRatio s a poolId = Some ra /\
    Dec_quoTruncate (RatePretty_toDec ra) (Dec_ofInt 100)
    = Some (RatePretty_toDec rl).
Proof.
  intros Hpool Hz Hl Heq.
  unfold getLockedGammShareRatio, getAvailableGammShareRatio.
  rewrite Hpool, Hz, Hl. cbn [bind].
  destruct (CoinPretty_quo_some locked _ Hz) as (q1 & Hq1 & ->).
  destruct (CoinPretty_quo_some (getAvailableGammShare s a poolId) _ Hz)
    as (q2 & Hq2 & ->).
  rewrite Heq, Hq2 in Hq1. injection Hq1 as <-.
  cbn [bind]. unfold CoinPretty_moveDecimalPointLeft. cbn [coin_int].
  match goal with
  | |- context [IntPretty_moveDecimalPointLeft ?p 2] =>
      destruct (IntPretty_moveDecimalPointLeft_2 p) as (d & Hd & ->)
  end.
  cbn [bind int_dec] in *.
  do 2 eexists. split; [reflexivity|]. split; [reflexivity|].
  exact Hd.
Qed.

Lemma locked_ratio_is_hundredth_of_available_witness :
  exists rl ra,
    getLockedGammShareRatio evenSnapshot addressA "3" = Some rl /\
    getAvailableGammShareRatio evenSnapshot addressA "3" = Some ra /\
    Dec_quoTruncate (RatePretty_toDec ra) (Dec_ofInt 100)
    = Some (RatePretty_toDec rl).
Proof.
  apply (locked_ratio_is_hundredth_of_available evenSnapshot addressA "3"
           (poolWithShares "3" 100) (shareCoin "3" 40)); reflexivity.
Defined.



(** ** Share assets *)

Lemma getAllGammShareRatio_registered (s : Snapshot) (a poolId : string)
    (pool : Pool) :
  getPool s poolId = Some pool ->
  exists r, getAllGammShareRatio s a poolId = Some r /\
            RatePretty_isReady r = true.
Proof.
  intros Hpool. unfold getAllGammShareRatio. rewrite Hpool.
  destruct (getAllGammShare_total s a poolId) as (all & ->). cbn [bind].
  destruct (Dec_isZero (CoinPretty_toDec (totalShare pool))) eqn:Hz.
  - now eexists.
  - destruct (CoinPretty_quo_some all _ Hz) as (q & _ & ->). now eexists.
Qed.

Lemma mapM_Forall2 {A B : Type} (f : A -> Exc B) (R : A -> B -> Prop)
    (xs : list A) :
  (forall x, In x xs -> exists y, f x = Some y /\ R x y) ->
  exists ys, mapM f xs = Some ys /\ Forall2 R xs ys.
Proof.
  induction xs as [|x xs IH]; intros H.
  - exists []. split; [reflexivity | constructor].
  - destruct (H x (or_introl eq_refl)) as (y & Hy & HR).
    destruct IH as (ys & Hys & HF); [intros z Hz; apply H; now right|].
    exists (y :: ys). cbn [mapM]. rewrite Hy. cbn [bind]. rewrite Hys.
    split; [reflexivity | now constructor].
Qed.

(** X11.  For a registered pool whose total weight is not zero,
    [getShareAssets] returns one entry per pool asset, in the order of the
    pool: the entry keeps the currency of the asset, and its ratio is the
    ready rate of the asset's weight over the total weight.  The branch for
    a ratio that is not ready is never taken for a registered pool. *)
Theorem getShareAssets_registered (s : Snapshot) (a poolId : string)
    (pool : Pool) :
  getPool s poolId = Some pool ->
  Dec_isZero (IntPretty_toDec (totalWeight pool)) = false ->
  exists entries,
    getShareAssets s a poolId = Some entries /\
    Forall2
      (fun pa e =>
         currency (asset e) = currency (amount pa) /\
         RatePretty_isReady (ratio e) = true /\
         Dec_quo (IntPretty_toDec (weight pa))
                 (IntPretty_toDec (totalWeight pool))
         = Some (RatePretty_toDec (ratio e)))
      (poolAssets pool) entries.
Proof.
  intros Hpool Hw. unfold getShareAssets.
  destruct (getAllGammShareRatio_registered s a poolId pool Hpool)
    as (r & -> & Hready).
  cbn [bind]. rewrite Hpool, Hready. cbn [negb].
  apply mapM_Forall2. intros pa _.
  destruct (Dec_quo_some (IntPretty_toDec (weight pa)) _ Hw) as (q & Hq).
  unfold IntPretty_quo. unfold IntPretty_toDec in Hq at 1. rewrite Hq.
  cbn [bind]. unfold RatePretty_moveDecimalPointLeft.
  destruct (IntPretty_moveDecimalPointLeft_2 (rate_int r)) as (d & _ & ->).
  cbn [bind]. eexists. split; [reflexivity|].
  cbn. repeat split. unfold IntPretty_toDec. exact Hq.
Qed.

Lemma getShareAssets_registered_witness :
  exists entries,
    getShareAssets scenario addressA "3" = Some entries /\
    map (fun e => coinMinimalDenom (currency (asset e))) entries
    = ["uosmo"; "uatom"].
Proof.
  destruct (getShareAssets_registered scenario addressA "3"
              (poolWithShares "3" 100) eq_refl eq_refl)
    as (entries & He & HF).
  exists entries. split; [exact He|].
  vm_compute in He. injection He as <-. reflexivity.
Defined.

(** X12.  The division by the total weight is not guarded: for a
    registered pool with at least one asset and a total weight of zero,
    [getShareAssets] throws. *)
Theorem getShareAssets_zero_weight_throws (s : Snapshot) (a poolId : string)
    (pool : Pool) (pa : PoolAsset) (rest : list PoolAsset) :
  getPool s poolId = Some pool ->
  poolAssets pool = pa :: rest ->
  Dec_isZero (IntPretty_toDec (totalWeight pool)) = true ->
  getShareAssets s a poolId = None.
Proof.
  intros Hpool Hassets Hw. unfold getShareAssets.
  destruct (getAllGammShareRatio_registered s a poolId pool Hpool)
    as (r & -> & Hready).
  cbn [bind]. rewrite Hpool, Hready, Hassets. cbn [negb mapM].
  unfold IntPretty_quo, Dec_quo.
  fold (Dec_isZero (IntPretty_toDec (totalWeight pool))).
  now rewrite Hw.
Qed.

Lemma getShareAssets_zero_weight_throws_witness :
  getShareAssets zeroWeightSnapshot addressA "3" = None.
Proof.
  apply (getShareAssets_zero_weight_throws zeroWeightSnapshot addressA "3"
           zeroWeightPool
           {| weight := IntPretty_new (Dec_ofInt 0);
              amount := {| currency := uosmo;
                           coin_int := IntPretty_new (Dec_ofInt 1000) |} |}
           []);
    reflexivity.
Defined.

(** ** The comparator of the sort *)

(** X13.  The comparator handed to [sort] never answers 0.  It answers
    that each of two ids comes after the other exactly when both have the
    same numeric value, and it answers -1 as soon as one of the ids has
    none. *)
Theorem comparePoolIds_answers (e1 e2 : string) :
  comparePoolIds e1 e2 <> 0 /\
  (comparePoolIds e1 e2 = 1 /\ comparePoolIds e2 e1 = 1 <->
   parseInt e1 = parseInt e2 /\ parseInt e1 <> NaN) /\
  (parseInt e1 = NaN \/ parseInt e2 = NaN -> comparePoolIds e1 e2 = -1).
Proof.
  unfold comparePoolIds.
  destruct (parseInt e1) as [|x| |], (parseInt e2) as [|y| |]; simpl;
    try (split; [discriminate|];
         split; [split; [intros [? ?]; try discriminate; split; congruence
                        | intros [? ?]; try discriminate; try congruence;
                          split; reflexivity]
                | intros [?|?]; try discriminate; reflexivity]).
  split; [destruct (y <=? x); discriminate|].
  split.
  - destruct (y <=? x) eqn:E1, (x <=? y) eqn:E2.
    + apply Z.leb_le in E1, E2. split.
      * intros _. split; [f_equal; lia | discriminate].
      * intros _. split; reflexivity.
    + split; [intros [_ H]; discriminate|].
      intros [[= ->] _]. rewrite Z.leb_refl in E2. discriminate.
    + split; [intros [H _]; discriminate|].
      intros [[= ->] _]. rewrite Z.leb_refl in E1. discriminate.
    + split; [intros [H _]; discriminate|].
      intros [[= ->] _]. rewrite Z.leb_refl in E1. discriminate.
  - intros [?|?]; discriminate.
Qed.

Lemma comparePoolIds_answers_witness :
  comparePoolIds "x" "1" = -1 /\ comparePoolIds "1" "x" = -1.
Proof.
  split.
  - apply (proj2 (proj2 (comparePoolIds_answers "x" "1"))).
    left. reflexivity.
  - apply (proj2 (proj2 (comparePoolIds_answers "1" "x"))).
    right. reflexivity.
Defined.

(** ** Locked assets per duration *)

(** X14.  [getShareLockedAssets] answers the requested durations one for
    one and in order: the durations of the entries are the durations
    asked, and each entry holds the amount and the lock ids the lock view
    gives for the address, the share currency of the pool and the
    duration of the entry. *)
Theorem getShareLockedAssets_per_duration {Duration : Type}
    (view : string -> Currency -> Duration -> LockedCoinWithDuration)
    (a poolId : string) (durations : list Duration) :
  map duration (getShareLockedAssets view a poolId durations) = durations /\
  Forall
    (fun e =>
       durationAmount e
       = lockedAmount (view a (getShareCurrency poolId) (duration e)) /\
       lockIds e
       = lockedIds (view a (getShareCurrency poolId) (duration e)))
    (getShareLockedAssets view a poolId durations).
Proof.
  unfold getShareLockedAssets; cbv zeta.
  induction durations as [|d ds [IHmap IHall]]; cbn [map].
  - split; constructor.
  - split.
    + cbn [duration]. now rewrite IHmap.
    + constructor; [split; reflexivity | exact IHall].
Qed.

(** * Properties of the page layout *)

(** X15.  Exactly one logo is visible in every state of the window: the
    fixed logo is rendered exactly when the block logo is not rendered or
    sits in a hidden sidebar. *)
Theorem exactly_one_logo_visible (st : LayoutState) :
  xorb (showFixedLogo st) (showBlockLogo st && negb (sidebarHidden st))
  = true.
Proof.
  unfold showFixedLogo, showBlockLogo, sidebarHidden.
  destruct (smallVerticalScreen st), (isMobile st), (showSidebar st);
    reflexivity.
Qed.

(** X16.  The sidebar and the mobile header are never hidden together nor
    shown together: one carries the class [hidden] exactly when the other
    does not; and the menu button is hidden only in a hidden header. *)
Theorem sidebar_and_header_alternate (st : LayoutState) :
  mobileHeaderHidden st = negb (sidebarHidden st) /\
  (menuButtonHidden st = true -> mobileHeaderHidden st = true).
Proof.
  unfold mobileHeaderHidden, sidebarHidden, menuButtonHidden.
  destruct (isMobile st), (showSidebar st); split;
    solve [reflexivity | discriminate].
Qed.

Lemma sidebar_and_header_alternate_witness :
  mobileHeaderHidden (mkLayoutState 700 true true true "/") = true.
Proof.
  apply (proj2 (sidebar_and_header_alternate
                  (mkLayoutState 700 true true true "/"))).
  reflexivity.
Defined.

Lemma stateless_tests (path : string) (menu : MainLayoutMenu)
    (re : RegExp) (h : RegExpHeap) :
  selectionTest menu = Some re ->
  global re = false -> sticky re = false ->
  matchesPath path menu h = (fst (selected path menu h), h) /\
  selected path menu h = (fst (selected path menu h), h).
Proof.
  intros Hre Hg Hy. unfold matchesPath, selected, RegExp_test.
  rewrite Hre, Hg, Hy. cbn [orb].
  destruct (matchFrom re 0 path); split; reflexivity.
Qed.

Lemma stateless_tests_menu (menus : list MainLayoutMenu) (path : string)
    (menu : MainLayoutMenu) (h : RegExpHeap) :
  statelessMenus menus -> In menu menus ->
  matchesPath path menu h = (fst (selected path menu h), h) /\
  selected path menu h = (fst (selected path menu h), h).
Proof.
  intros Hst Hin. destruct (selectionTest menu) as [re|] eqn:Hre.
  - destruct (Hst menu re Hin Hre) as [Hg Hy].
    now apply (stateless_tests path menu re).
  - unfold matchesPath, selected. rewrite Hre. split; reflexivity.
Qed.

Lemma statelessMenus_tail (menu : MainLayoutMenu)
    (menus : list MainLayoutMenu) :
  statelessMenus (menu :: menus) -> statelessMenus menus.
Proof.
  intros H m re Hin. apply H. now right.
Qed.

Lemma selectedMenuItem_stateless (menus : list MainLayoutMenu)
    (path : string) (h : RegExpHeap) :
  statelessMenus menus ->
  selectedMenuItem menus path h
  = (find (fun menu => fst (selected path menu h)) menus, h).
Proof.
  induction menus as [|m ms IH]; intros Hst; cbn [selectedMenuItem find].
  - reflexivity.
  - destruct (stateless_tests_menu (m :: ms) path m h Hst) as [-> _];
      [now left|].
    destruct (fst (selected path m h)); [reflexivity|].
    apply IH. now apply statelessMenus_tail in Hst.
Qed.

Lemma renderMenuItems_stateless (menus : list MainLayoutMenu)
    (path : string) (h : RegExpHeap) :
  statelessMenus menus ->
  renderMenuItems menus path h
  = (map (fun menu => (menu, fst (selected path menu h))) menus, h).
Proof.
  induction menus as [|m ms IH]; intros Hst; cbn [renderMenuItems map].
  - reflexivity.
  - destruct (stateless_tests_menu (m :: ms) path m h Hst) as [_ ->];
      [now left|].
    rewrite IH by now apply statelessMenus_tail in Hst.
    reflexivity.
Qed.

Lemma renderMenuItems_menus (menus : list MainLayoutMenu) (path : string)
    (h : RegExpHeap) :
  map fst (fst (renderMenuItems menus path h)) = menus.
Proof.
  revert h; induction menus as [|m ms IH]; intros h; cbn [renderMenuItems].
  - reflexivity.
  - destruct (selected path m h) as [b h'].
    specialize (IH h').
    destruct (renderMenuItems ms path h') as [items h''].
    cbn [fst map] in *. now rewrite IH.
Qed.

Lemma renderMenuItems_no_test (menus : list MainLayoutMenu) (path : string)
    (h : RegExpHeap) (menu : MainLayoutMenu) (isSelected : bool) :
  In (menu, isSelected) (fst (renderMenuItems menus path h)) ->
  selectionTest menu = None -> isSelected = false.
Proof.
  revert h; induction menus as [|m ms IH]; intros h; cbn [renderMenuItems].
  - intros [].
  - destruct (selected path m h) as [b h'] eqn:Eb.
    specialize (IH h').
    destruct (renderMenuItems ms path h') as [items h''].
    cbn [fst In] in *. intros [E|Hin] Hnone.
    + injection E as -> ->. unfold selected in Eb. rewrite Hnone in Eb.
      now injection Eb as <- _.
    + now apply IH.
Qed.

(** X17.  A menu with no selection test is never rendered as selected and
    opens in a new tab, and the items rendered are the menus in their
    order.  When no expression of the menus carries the flag [g] or [y],
    a rendering leaves every [lastIndex] as it was, and the title of the
    navigation bar is the label of the first menu rendered as selected,
    which is also the first page title rendered; it is the empty string
    when no menu is selected; the menu that gives the title is rendered as
    selected, opens in the same tab and has no external-link mark. *)
Theorem navBarTitle_is_first_selected (menus : list MainLayoutMenu)
    (path : string) (h : RegExpHeap) :
  map fst (menuItems (fst (renderMainLayout menus path h))) = menus /\
  (forall menu isSelected,
     In (menu, isSelected) (menuItems (fst (renderMainLayout menus path h)))
     -> selectionTest menu = None ->
     isSelected = false /\ linkTarget menu = "_blank") /\
  (statelessMenus menus ->
   snd (renderMainLayout menus path h) = h /\
   hd_error (headTitles (fst (renderMainLayout menus path h)))
   = option_map label (fst (selectedMenuItem menus path h)) /\
   navBarTitle (fst (renderMainLayout menus path h))
   = hd EmptyString (headTitles (fst (renderMainLayout menus path h))) /\
   forall menu, fst (selectedMenuItem menus path h) = Some menu ->
     In (menu, true) (menuItems (fst (renderMainLayout menus path h))) /\
     linkTarget menu = "_self" /\ showLinkDeco menu = false).
Proof.
  split; [|split].
  - unfold renderMainLayout.
    destruct (selectedMenuItem menus path h) as [sel h1].
    pose proof (renderMenuItems_menus menus path h1) as H.
    destruct (renderMenuItems menus path h1) as [items h2]. exact H.
  - intros menu isSelected Hin Hnone. unfold renderMainLayout in Hin.
    destruct (selectedMenuItem menus path h) as [sel h1].
    pose proof (renderMenuItems_no_test menus path h1 menu isSelected) as H.
    destruct (renderMenuItems menus path h1) as [items h2].
    cbn [fst menuItems] in *. split; [now apply H|].
    unfold linkTarget. now rewrite Hnone.
  - intros Hst. unfold renderMainLayout.
    rewrite (selectedMenuItem_stateless menus path h Hst).
    rewrite (renderMenuItems_stateless menus path h Hst).
    cbn [fst snd menuItems navBarTitle]. unfold headTitles.
    cbn [menuItems].
    set (test := fun menu => fst (selected path menu h)).
    assert (Hhd : hd_error
                    (map (fun item : MainLayoutMenu * bool =>
                            label (fst item))
                       (filter snd (map (fun menu => (menu, test menu))
                                        menus)))
                  = option_map label (find test menus)).
    { clear Hst. induction menus as [|m ms IH]; [reflexivity|].
      cbn [map filter find snd]. destruct (test m); [reflexivity|exact IH]. }
    split; [reflexivity|]. split; [exact Hhd|]. split.
    + destruct (find test menus) as [m|];
        destruct (map _ (filter snd _)) as [|t ts];
        cbn [hd_error option_map hd] in *; congruence.
    + intros menu Hfind. apply find_some in Hfind as [Hin Hm].
      split; [|].
      * apply in_map_iff. exists menu. split; [|exact Hin].
        unfold test in Hm. now rewrite Hm.
      * unfold test, selected, linkTarget, showLinkDeco in *.
        destruct (selectionTest menu); [split; reflexivity|discriminate].
Qed.

Lemma navBarTitle_is_first_selected_witness :
  navBarTitle (fst (renderMainLayout sampleMenus "/pools" freshRegExps))
  = "Pools" /\
  headTitles (fst (renderMainLayout sampleMenus "/pools" freshRegExps))
  = ["Pools"].
Proof.
  assert (Hst : statelessMenus sampleMenus).
  { intros menu re [<-|[<-|[<-|[]]]] [= <-]; split; reflexivity. }
  destruct (navBarTitle_is_first_selected sampleMenus "/pools" freshRegExps)
    as (_ & _ & Hpure).
  destruct (Hpure Hst) as (_ & _ & Htitle & _).
  split; [rewrite Htitle|]; reflexivity.
Defined.

(** X19.  With the flag [g] or [y] the two tests of one rendering can
    disagree: for a single menu whose expression matches the path from its
    [lastIndex] but not again from the end of that match, the title of the
    navigation bar is the label of the menu, yet the menu is rendered as
    not selected and no page title is rendered. *)
Theorem stateful_test_title_without_selection (menu : MainLayoutMenu)
    (re : RegExp) (path : string) (h : RegExpHeap) (e : nat) :
  selectionTest menu = Some re ->
  global re || sticky re = true ->
  (h (regexpId re) <= String.length path)%nat ->
  matchFrom re (h (regexpId re)) path = Some e ->
  (e <= String.length path)%nat ->
  matchFrom re e path = None ->
  navBarTitle (fst (renderMainLayout [menu] path h)) = label menu /\
  menuItems (fst (renderMainLayout [menu] path h)) = [(menu, false)] /\
  headTitles (fst (renderMainLayout [menu] path h)) = [].
Proof.
  intros Hre Hflag Hlast Hmatch He Hagain.
  assert (Hlast' : (String.length path <? h (regexpId re))%nat = false)
    by now apply Nat.ltb_ge.
  assert (He' : (String.length path <? e)%nat = false)
    by now apply Nat.ltb_ge.
  unfold headTitles, renderMainLayout.
  cbn [selectedMenuItem renderMenuItems].
  unfold matchesPath, selected, RegExp_test.
  rewrite Hre, Hflag. cbv zeta. rewrite Hlast', Hmatch.
  unfold setLastIndex. cbv beta. rewrite Nat.eqb_refl, He', Hagain.
  repeat split.
Qed.

Lemma stateful_test_title_without_selection_witness :
  navBarTitle (fst (renderMainLayout [globalPoolsMenu] "/pools"
                                     freshRegExps)) = "Pools" /\
  menuItems (fst (renderMainLayout [globalPoolsMenu] "/pools"
                                   freshRegExps))
  = [(globalPoolsMenu, false)].
Proof.
  destruct (stateful_test_title_without_selection globalPoolsMenu
              (mkRegExp 1 true false (literalFrom "/pool")) "/pools"
              freshRegExps 5%nat) as (Ht & Hi & _);
    try reflexivity.
  - vm_compute. lia.
  - vm_compute. lia.
  - split; assumption.
Defined.

(** * Owned pools out of order *)

